(** * website_audit.py: crawler, page auditor, load generator, summarizer, autoscaler

    A shallow embedding of the core of [website_audit.py] and the proofs of
    its specified properties.

    Modelling conventions.
    - Python [str] is [string], and a list of code points where characters
      beyond ASCII matter; Python [int] is [Z].
    - A Python [float] is an IEEE 754 double.  It is written as a rational
      ([Q]); a rational that is no double stands for the double nearest to
      it, the way Python reads a literal, so [1 # 1000] is the float [0.001].
      [+], [-], [*] and [/] on floats round their operands and their result
      to the nearest double, ties to even ([to_float]); [round(x, 3)] rounds
      the exact value of the double; comparisons, [math.ceil] and [int] are
      exact.  Infinities and nan are not represented.
    - Everything outside the program (the network, the clock, BeautifulSoup,
      [urllib.parse]) is an interface, the class [Env]; the program is
      parametric in it.  The network and the clock are stateful: they are
      threaded through a state monad over the environment's [World].
    - [while] loops are iterated by a fuel argument; the termination lemmas
      show how much fuel is enough. *)

From Stdlib Require Import ZArith QArith Qround Qabs Qpower Lia Lqa Ascii String DecimalString.
From Stdlib Require Import Sorting.Sorted Sorting.Permutation SetoidList.
From stdpp Require Import base gmap strings list.

Local Open Scope Z_scope.

(** ** Python numerics *)

(** [round(x)]: nearest integer, ties to the even one. *)
Definition py_round (x : Q) : Z :=
  let f := Qfloor x in
  match Qcompare (x - inject_Z f) (1 # 2) with
  | Lt => f
  | Gt => f + 1
  | Eq => if Z.even f then f else f + 1
  end.

(** *** Doubles *)

Definition pow2 (k : Z) : Q := (2 ^ k)%Q.

(** The integer logarithm of a positive rational: [2^l <= x < 2^(l+1)]. *)
Definition ilog2 (x : Q) : Z :=
  let l := Z.log2 (Qnum x) - Z.log2 (Zpos (Qden x)) in
  if Qle_bool (pow2 l) x then l else l - 1.

(** The exponent of the unit in the last place of the double nearest to [x]:
    53 significant bits, and no exponent below -1074 (subnormal numbers). *)
Definition ulp_exponent (x : Q) : Z := Z.max (-1074) (ilog2 x - 52).

(** The multiple of the unit in the last place nearest to a positive [x],
    ties to the even multiple. *)
Definition round_pos (x : Q) : Q :=
  let e := ulp_exponent x in
  (inject_Z (py_round (x / pow2 e)) * pow2 e)%Q.

(** [float(x)]: the double nearest to [x].  Values of 2^1024 and more stand
    for an overflow. *)
Definition to_float (x : Q) : Q :=
  match Qcompare x 0 with
  | Eq => 0%Q
  | Gt => round_pos (Qred x)
  | Lt => (- round_pos (Qred (- x)))%Q
  end.

(** [x + y], [x - y], [x * y] and [x / y] on floats. *)
Definition float_add (x y : Q) : Q := to_float (to_float x + to_float y).
Definition float_sub (x y : Q) : Q := to_float (to_float x - to_float y).
Definition float_mul (x y : Q) : Q := to_float (to_float x * to_float y).
Definition float_div (x y : Q) : Q := to_float (to_float x / to_float y).

(** [x] rounded to 3 decimal places, ties to the even thousandth. *)
Definition round3_exact (x : Q) : Q := (inject_Z (py_round (x * 1000)) / 1000)%Q.

(** [round(x, 3)] on a float: the exact value of the double is rounded to 3
    decimal places; the result [k / 1000] stands for the double nearest to
    it. *)
Definition py_round3 (x : Q) : Q := round3_exact (to_float x).

(** [int(x)] on a float: truncation towards zero. *)
Definition py_int (x : Q) : Z :=
  if Qle_bool 0 x then Qfloor x else Qceiling x.

(** [math.ceil(x)]. *)
Definition math_ceil (x : Q) : Z := Qceiling x.

(** [sum(xs)] on floats: the elements are added from left to right, every
    addition rounded (CPython up to 3.11; from 3.12 on [sum] also carries a
    compensation term). *)
Definition py_sum (xs : list Q) : Q := foldl float_add 0%Q xs.

(** [len(xs)] as a Python int. *)
Definition len {A} (xs : list A) : Z := Z.of_nat (length xs).

(** [sorted(xs)]: a stable ascending sort. *)
Fixpoint sorted_insert (x : Q) (l : list Q) : list Q :=
  match l with
  | [] => [x]
  | y :: l' => if Qle_bool x y then x :: y :: l' else y :: sorted_insert x l'
  end.

Fixpoint sorted (xs : list Q) : list Q :=
  match xs with
  | [] => []
  | x :: xs' => sorted_insert x (sorted xs')
  end.

(** ** Python strings *)

Local Open Scope string_scope.

(** [s.startswith(p)]. *)
Definition startswith (p s : string) : bool := String.prefix p s.

(** [s.split(c)[0]]: the part of [s] before the first [c], all of [s] when
    [c] does not occur. *)
Fixpoint split_head (c : ascii) (s : string) : string :=
  match s with
  | EmptyString => EmptyString
  | String a r => if Ascii.eqb a c then EmptyString else String a (split_head c r)
  end.

(** [c in s] for a one-character [c]. *)
Fixpoint contains_char (c : ascii) (s : string) : bool :=
  match s with
  | EmptyString => false
  | String a r => Ascii.eqb a c || contains_char c r
  end.

Definition is_upper (a : ascii) : bool :=
  let n := nat_of_ascii a in (65 <=? n)%nat && (n <=? 90)%nat.

Definition is_lower (a : ascii) : bool :=
  let n := nat_of_ascii a in (97 <=? n)%nat && (n <=? 122)%nat.

Definition is_digit (a : ascii) : bool :=
  let n := nat_of_ascii a in (48 <=? n)%nat && (n <=? 57)%nat.

Definition lower_char (a : ascii) : ascii :=
  if is_upper a then ascii_of_nat (nat_of_ascii a + 32) else a.

(** [s.lower()], on ASCII text. *)
Fixpoint lower (s : string) : string :=
  match s with
  | EmptyString => EmptyString
  | String a r => String (lower_char a) (lower r)
  end.

(** A text in which characters beyond ASCII matter: its code points. *)
Definition unicode : Type := list N.

(** The code points of an ASCII text. *)
Definition codepoints (s : string) : unicode :=
  map N_of_ascii (list_ascii_of_string s).

(** [c.isspace()]: the white space of [str.strip()], which is the ASCII
    white space and the Unicode space separators and line breaks. *)
Definition is_space (c : N) : bool :=
  ((9 <=? c) && (c <=? 13) || (28 <=? c) && (c <=? 32)
   || (c =? 133) || (c =? 160) || (c =? 5760)
   || (8192 <=? c) && (c <=? 8202)
   || (c =? 8232) || (c =? 8233) || (c =? 8239) || (c =? 8287) || (c =? 12288))%N.

(** [bool(s.strip())]: some character of [s] is not white space. *)
Definition strip_nonempty (s : unicode) : bool :=
  existsb (fun c => negb (is_space c)) s.

(** Truth value of an optional string ([None] and [""] are false). *)
Definition truthy (o : option string) : bool :=
  match o with
  | Some (String _ _) => true
  | _ => false
  end.

(** ** The HTTP response and the parsed page *)

(** What the program reads of a [requests.Response]. *)
Record Response := {
  status_code : Z;
  headers : list (string * string);
  text : string;
}.

(** [h in r.headers].  [r.headers] is a [requests.structures.CaseInsensitiveDict]:
    the library stores every entry under its lower-cased name and looks names
    up lower-cased, so membership ignores the case of the name. *)
Definition header_in (h : string) (hs : list (string * string)) : bool :=
  existsb (fun kv => String.eqb (lower (fst kv)) (lower h)) hs.

(** What the program reads of the parsed document. *)
Record Soup := {
  soup_title : option (option unicode);  (* soup.title, and its .string *)
  soup_meta_description : bool;          (* soup.find("meta", attrs={"name": "description"}) found *)
  soup_h1 : bool;                        (* soup.find("h1") found *)
  soup_html : option (option string);    (* soup.find("html"), and its .get("lang") *)
  soup_img_alts : list (option string);  (* img.get("alt") for img in soup.find_all("img") *)
  soup_hrefs : list string;              (* a["href"] for a in soup.find_all("a", href=True) *)
}.

(** ** The environment *)

Class Env := {
  World : Type;
  (* time.time() *)
  time_time : World -> Q * World;
  (* requests.get(url, headers=hs, timeout=12) and session.get(url, timeout=12):
     the response, or [inl (str e)] for the exception [e] raised *)
  requests_get : string -> list (string * string) -> World -> (string + Response) * World;
  (* BeautifulSoup(text, "html.parser") *)
  BeautifulSoup : string -> Soup;
  (* urljoin(base, href); None when it raises *)
  urljoin : string -> string -> option string;
  (* urlparse(url).netloc; None when it raises *)
  netloc : string -> option string;
}.

(** The state monad over the world. *)
Definition io `{Env} (A : Type) : Type := World -> A * World.

#[global] Instance io_ret `{Env} : MRet io := fun A a w => (a, w).
#[global] Instance io_bind `{Env} : MBind io :=
  fun A B f m w => let '(a, w') := m w in f a w'.

Definition clock `{Env} : io Q := time_time.
Definition http_get `{Env} (u : string) (hs : list (string * string))
    : io (string + Response) :=
  requests_get u hs.

(** ** Core crawling and auditing *)

Definition SECURITY_HEADERS : list string :=
  [ "Content-Security-Policy";
    "Strict-Transport-Security";
    "X-Frame-Options";
    "X-Content-Type-Options" ].

Inductive Status :=
| StatusError             (* the string "Error" *)
| StatusCode (code : Z).  (* r.status_code *)

Record PageResult := {
  url : string;
  status : option Status;
  load_time : option Q;
  security : list string;
  seo : list string;
  accessibility : list string;
  error : option string;
}.

(** [fetch_page(url)]: the triple [(r, elapsed, err)]. *)
Definition fetch_page `{Env} (u : string) : io (option Response * option Q * option string) :=
  start ← clock;
  r ← http_get u [];
  match r with
  | inr resp =>
      stop ← clock;
      mret (Some resp, Some (py_round3 (float_sub stop start)), None)
  | inl e => mret (None, None, Some e)
  end.

Definition https_finding : string := "Site is not using HTTPS".
Definition header_finding (h : string) : string := "Missing security header: " ++ h.

(** The loop [for h in SECURITY_HEADERS: if h not in r.headers: append]. *)
Definition missing_headers (hs : list (string * string)) : list string :=
  map header_finding (filter (fun h => header_in h hs = false) SECURITY_HEADERS).

Definition security_checks (u : string) (r : Response) : list string :=
  ((if startswith "http://" u then [https_finding] else [])
   ++ missing_headers (headers r))%list.

Definition seo_checks (soup : Soup) : list string :=
  (match soup_title soup with
   | Some (Some s) => if strip_nonempty s then [] else ["Missing <title> tag"]
   | _ => ["Missing <title> tag"]
   end)
  ++ (if soup_meta_description soup then [] else ["Missing meta description"])
  ++ (if soup_h1 soup then [] else ["Missing <h1> heading"]).

Definition accessibility_checks (soup : Soup) : list string :=
  (match soup_html soup with
   | Some lang => if truthy lang then [] else ["<html> tag missing 'lang' attribute"]
   | None => []
   end)
  ++ (if existsb (fun alt => negb (truthy alt)) (soup_img_alts soup)
      then ["Image missing alt attribute"] else []).

(** The record [analyze_page] starts from. *)
Definition new_result (u : string) : PageResult :=
  {| url := u; status := None; load_time := None;
     security := []; seo := []; accessibility := []; error := None |}.

(** The early return: [status = "Error"], [error = err or "Fetch error"]. *)
Definition error_result (u : string) (err : option string) : PageResult :=
  let result := new_result u in
  {| url := url result; status := Some StatusError; load_time := load_time result;
     security := security result; seo := seo result;
     accessibility := accessibility result;
     error := if truthy err then err else Some "Fetch error" |}.

(** The audit of a fetched page. *)
Definition audit_result (u : string) (r : Response) (elapsed : option Q)
    (soup : Soup) : PageResult :=
  let result := new_result u in
  {| url := url result; status := Some (StatusCode (status_code r));
     load_time := elapsed;
     security := security result ++ security_checks u r;
     seo := seo result ++ seo_checks soup;
     accessibility := accessibility result ++ accessibility_checks soup;
     error := error result |}.

Definition analyze_page `{Env} (u : string) : io PageResult :=
  f ← fetch_page u;
  let '(r, elapsed, err) := f in
  match r with
  | Some resp =>
      if truthy err then mret (error_result u err)
      else mret (audit_result u resp elapsed (BeautifulSoup (text resp)))
  | None => mret (error_result u err)
  end.

(** The traversal state of one [crawl_site] call. *)
Record CrawlState := {
  visited : gset string;
  queue : list string;
  results : list PageResult;
}.

(** The header sent with the link-extraction request. *)
Definition crawl_headers : list (string * string) :=
  [("User-Agent", "Mozilla/5.0 (Windows NT 10.0; Win64; x64)")].

(** The loop over the anchors of one page.  An exception of [urljoin] or
    [urlparse] leaves the loop (it is caught by the enclosing [try]); the
    links queued before it stay queued. *)
Fixpoint enqueue_links `{Env} (start_url u : string) (seen : gset string)
    (hrefs : list string) (q : list string) : list string :=
  match hrefs with
  | [] => q
  | href :: rest =>
      match urljoin u href with
      | None => q
      | Some joined =>
          let link := split_head "#" joined in
          match netloc link, netloc start_url with
          | Some n, Some n0 =>
              if String.eqb n n0 then
                if bool_decide (link ∉ seen) && bool_decide (link ∉ q)
                then enqueue_links start_url u seen rest (q ++ [link])%list
                else enqueue_links start_url u seen rest q
              else enqueue_links start_url u seen rest q
          | _, _ => q
          end
      end
  end.

(** The loop test [queue and len(visited) < max_pages]. *)
Definition crawl_continues (max_pages : Z) (st : CrawlState) : bool :=
  match queue st with
  | [] => false
  | _ :: _ => (Z.of_nat (size (visited st)) <? max_pages)%Z
  end.

(** One iteration of the [while] loop. *)
Definition crawl_body `{Env} (start_url : string) (st : CrawlState) : io CrawlState :=
  match queue st with
  | [] => mret st
  | u :: q =>
      if bool_decide (u ∈ visited st) then
        mret {| visited := visited st; queue := q; results := results st |}
      else
        let seen := {[u]} ∪ visited st in
        res ← analyze_page u;
        let rs := (results st ++ [res])%list in
        r ← http_get u crawl_headers;
        match r with
        | inl _ => mret {| visited := seen; queue := q; results := rs |}
        | inr resp =>
            if negb (status_code resp =? 200)%Z then
              mret {| visited := seen; queue := q; results := rs |}
            else
              let soup := BeautifulSoup (text resp) in
              mret {| visited := seen;
                      queue := enqueue_links start_url u seen (soup_hrefs soup) q;
                      results := rs |}
        end
  end.

(** The [while] loop, [None] when the fuel runs out before the loop ends. *)
Fixpoint crawl_loop `{Env} (fuel : nat) (start_url : string) (max_pages : Z)
    (st : CrawlState) : io (option CrawlState) :=
  match fuel with
  | O => mret None
  | S fuel' =>
      if crawl_continues max_pages st then
        st' ← crawl_body start_url st;
        crawl_loop fuel' start_url max_pages st'
      else mret (Some st)
  end.

Definition crawl_init (start_url : string) : CrawlState :=
  {| visited := ∅; queue := [start_url]; results := [] |}.

Definition crawl_site `{Env} (fuel : nat) (start_url : string) (max_pages : Z)
    : io (option (list PageResult)) :=
  st ← crawl_loop fuel start_url max_pages (crawl_init start_url);
  mret (option_map results st).

(** The states the loop of [crawl_site start_url max_pages] passes through,
    each with the world it is reached in. *)
Inductive crawl_reaches `{Env} (start_url : string) (max_pages : Z)
    : CrawlState -> World -> Prop :=
| reaches_init w : crawl_reaches start_url max_pages (crawl_init start_url) w
| reaches_step st w st' w' :
    crawl_reaches start_url max_pages st w ->
    crawl_continues max_pages st = true ->
    crawl_body start_url st w = (st', w') ->
    crawl_reaches start_url max_pages st' w'.

(** ** Load testing *)

Record LoadSample := {
  sample_status : Status;
  sample_time : option Q;
}.

(** [fetch_once(session, url)]. *)
Definition fetch_once `{Env} (u : string) : io LoadSample :=
  start ← clock;
  r ← http_get u [];
  match r with
  | inr resp =>
      stop ← clock;
      mret {| sample_status := StatusCode (status_code resp);
              sample_time := Some (py_round3 (float_sub stop start)) |}
  | inl _ => mret {| sample_status := StatusError; sample_time := None |}
  end.

(** One wave: [wave] workers, their samples in completion order. *)
Fixpoint run_wave `{Env} (wave : nat) (u : string) : io (list LoadSample) :=
  match wave with
  | O => mret []
  | S n =>
      s ← fetch_once u;
      ss ← run_wave n u;
      mret (s :: ss)
  end.

Definition batch_size : Z := 300.

(** The [while remaining > 0] loop; it returns the samples wave by wave, and
    [None] when the fuel runs out before the loop ends. *)
Fixpoint load_loop `{Env} (fuel : nat) (u : string) (remaining : Z)
    (waves : list (list LoadSample)) : io (option (list (list LoadSample))) :=
  match fuel with
  | O => mret None
  | S fuel' =>
      if (0 <? remaining)%Z then
        let wave := Z.min batch_size remaining in
        ss ← run_wave (Z.to_nat wave) u;
        load_loop fuel' u (remaining - wave) (waves ++ [ss])%list
      else mret (Some waves)
  end.

(** The waves of [run_load_test(url, users)]. *)
Definition load_waves `{Env} (fuel : nat) (u : string) (users : Z)
    : io (option (list (list LoadSample))) :=
  load_loop fuel u users [].

(** [run_load_test(url, users)]: [results] is the concatenation of the waves. *)
Definition run_load_test `{Env} (fuel : nat) (u : string) (users : Z)
    : io (option (list LoadSample)) :=
  ws ← load_waves fuel u users;
  mret (option_map (@concat LoadSample) ws).

(** ** Summary of the load samples *)

(** [xs[i]] with Python's negative indices; [None] is [IndexError]. *)
Definition getitem {A} (xs : list A) (i : Z) : option A :=
  if (i <? 0)%Z then
    if (0 <=? len xs + i)%Z then xs !! Z.to_nat (len xs + i) else None
  else xs !! Z.to_nat i.

(** [collections.Counter] over float keys, in insertion order. *)
Fixpoint counter_add (k : Q) (c : list (Q * Z)) : list (Q * Z) :=
  match c with
  | [] => [(k, 1%Z)]
  | (k', n) :: c' =>
      if Qeq_bool k' k then (k', (n + 1)%Z) :: c' else (k', n) :: counter_add k c'
  end.

Definition Counter (ks : list Q) : list (Q * Z) :=
  foldl (fun c k => counter_add k c) [] ks.

(** [int((t or 0) * 10) / 10]: the product is a float product, the quotient
    of the two ints is the float nearest to [k / 10]. *)
Definition bucket (t : Q) : Q :=
  let t0 := if Qeq_bool t 0 then 0%Q else t in
  (inject_Z (py_int (float_mul t0 10)) / 10)%Q.

Record LoadSummary := {
  total : Z;
  success : Z;
  failures : Z;
  avg : option Q;
  p95 : option Q;
  histogram : list (Q * Z);
}.

Definition is_200 (r : LoadSample) : bool :=
  match sample_status r with
  | StatusCode c => (c =? 200)%Z
  | StatusError => false
  end.

(** [[r["time"] for r in results if r["time"] is not None]]. *)
Definition sample_times (rs : list LoadSample) : list Q := omap sample_time rs.

Definition summarize_load_results (rs : list LoadSample) : LoadSummary :=
  let total := len rs in
  let success := len (filter (fun r => is_200 r = true) rs) in
  let failures := (total - success)%Z in
  let times := sample_times rs in
  let avg :=
    match times with
    | [] => None
    | _ :: _ => Some (py_round3 (float_div (py_sum times) (inject_Z (len times))))
    end in
  let p95 :=
    match times with
    | [] => None
    | _ :: _ =>
        let s := sorted times in
        (* the integer part of the float product [0.95 * (len(s) - 1)] is that
           of the exact product *)
        let idx := py_int ((95 # 100) * inject_Z (len s - 1)) in
        getitem s idx
    end in
  {| total := total; success := success; failures := failures;
     avg := avg; p95 := p95; histogram := Counter (map bucket times) |}.

(** ** Autoscaling *)

Record ScaleEstimate := {
  servers : Z;
  scaled_avg : option Q;
  processed : Z;
  failed : Z;
}.

(** [auto_scale(avg_time, target, load_summary)]; [None] is the
    [ZeroDivisionError] of [avg_time / target].  A quotient that overflows is
    an infinity, on which [math.ceil] raises [OverflowError]: such inputs
    ([quotient_finite] fails) are outside the floats represented here. *)
Definition auto_scale (avg_time : option Q) (target : Q) (load_summary : LoadSummary)
    : option ScaleEstimate :=
  match avg_time with
  | Some a =>
      if Qle_bool a 0 then
        Some {| servers := 1; scaled_avg := avg_time;
                processed := success load_summary;
                failed := failures load_summary |}
      else if Qeq_bool target 0 then None
      else
        let servers := Z.max 1 (math_ceil (float_div a target)) in
        let scaled_avg := py_round3 (float_div a (inject_Z servers)) in
        Some {| servers := servers; scaled_avg := Some scaled_avg;
                processed := total load_summary; failed := 0 |}
  | None =>
      Some {| servers := 1; scaled_avg := avg_time;
              processed := success load_summary;
              failed := failures load_summary |}
  end.

(** ** The vocabulary of the specification *)


(** [a] is [x] rounded to 3 decimal places: a multiple of 1/1000 nearest to [x]. *)
Definition rounded_to_3dp (a x : Q) : Prop :=
  (exists k : Z, a == inject_Z k / 1000)%Q /\ (Qabs (a - x) <= 1 # 2000)%Q.



(** The float quotient [a / target] does not overflow. *)
Definition quotient_finite (a target : Q) : Prop :=
  (Qabs (float_div a target) < pow2 1024)%Q.

(** A load sample with an elapsed time. *)
Definition timed (t : Q) : LoadSample :=
  {| sample_status := StatusCode 200; sample_time := Some t |}.


(** How many elements of [xs] are below [v], and how many are at most [v]. *)
Definition count_lt (v : Q) (xs : list Q) : nat :=
  length (List.filter (fun x => negb (Qle_bool v x)) xs).

Definition count_le (v : Q) (xs : list Q) : nat :=
  length (List.filter (fun x => Qle_bool x v) xs).

(** The samples of the specification's example: elapsed times 1 to 5 seconds. *)
Definition five_samples : list LoadSample :=
  map (fun t => {| sample_status := StatusCode 200; sample_time := Some (inject_Z t) |})
      [1; 2; 3; 4; 5]%Z.

(** A URL contains a fragment separator. *)
Definition has_fragment (u : string) : bool := contains_char "#" u.

Definition scheme_char (a : ascii) : bool :=
  is_upper a || is_lower a || is_digit a
  || Ascii.eqb a "+" || Ascii.eqb a "-" || Ascii.eqb a ".".

Fixpoint forall_chars (p : ascii -> bool) (s : string) : bool :=
  match s with
  | EmptyString => true
  | String a r => p a && forall_chars p r
  end.

(** [s.lstrip(chars)] for the characters that satisfy [p]. *)
Fixpoint lstrip (p : ascii -> bool) (s : string) : string :=
  match s with
  | EmptyString => EmptyString
  | String a r => if p a then lstrip p r else s
  end.

(** [s] without the characters that satisfy [p]. *)
Fixpoint remove_chars (p : ascii -> bool) (s : string) : string :=
  match s with
  | EmptyString => EmptyString
  | String a r => if p a then remove_chars p r else String a (remove_chars p r)
  end.

(** The C0 control characters and the space. *)
Definition c0_control_or_space (a : ascii) : bool := (nat_of_ascii a <=? 32)%nat.

(** Tab, carriage return and line feed. *)
Definition unsafe_url_char (a : ascii) : bool :=
  let n := nat_of_ascii a in (n =? 9)%nat || (n =? 13)%nat || (n =? 10)%nat.

(** The scheme of a URL as [urllib.parse] reads it.  Leading control
    characters and spaces are stripped, tabs and line breaks are removed;
    the scheme is then the text before the first colon when that is a letter
    followed by scheme characters, lower-cased, and empty otherwise. *)
Definition url_scheme (u : string) : string :=
  let u := remove_chars unsafe_url_char (lstrip c0_control_or_space u) in
  if contains_char ":" u then
    match split_head ":" u with
    | String a r =>
        if (is_upper a || is_lower a) && forall_chars scheme_char r
        then lower (String a r) else ""
    | EmptyString => ""
    end
  else "".

(** [s.partition(c)]: the text before the first [c], and the text after it
    when [c] occurs. *)
Fixpoint partition_char (c : ascii) (s : string) : string * option string :=
  match s with
  | EmptyString => (EmptyString, None)
  | String a r =>
      if Ascii.eqb a c then (EmptyString, Some r)
      else let '(b, t) := partition_char c r in (String a b, t)
  end.

(** [s.rpartition(c)[2]]: the text after the last [c], all of [s] when [c]
    does not occur. *)
Fixpoint after_last (c : ascii) (s : string) : string :=
  match s with
  | EmptyString => EmptyString
  | String a r =>
      if contains_char c r then after_last c r
      else if Ascii.eqb a c then r else s
  end.

(** The host name of a network location, as the [hostname] property of
    [urllib.parse] computes it: after the user information, inside the
    brackets or before the port, lower-cased up to an IPv6 zone. *)
Definition hostname_of_netloc (n : string) : option string :=
  let hostinfo := after_last "@" n in
  let host :=
    match partition_char "[" hostinfo with
    | (_, Some bracketed) => fst (partition_char "]" bracketed)
    | (_, None) => fst (partition_char ":" hostinfo)
    end in
  match host with
  | EmptyString => None
  | _ =>
      match partition_char "%" host with
      | (h, Some zone) => Some (lower h ++ "%" ++ zone)
      | (h, None) => Some (lower h)
      end
  end.

(** [urlparse(u).hostname]; the outer [None] when [urlparse] raises. *)
Definition hostname `{Env} (u : string) : option (option string) :=
  hostname_of_netloc <$> netloc u.

(** The fetch of [u] from world [w] succeeds with response [r]. *)
Definition fetched `{Env} (u : string) (w : World) (r : Response) : Prop :=
  exists w', requests_get u [] (snd (time_time w)) = (inr r, w').

(** The fetch of [u] from world [w] fails with the error text [e]. *)
Definition fetch_fails `{Env} (u : string) (w : World) (e : string) : Prop :=
  exists w', requests_get u [] (snd (time_time w)) = (inl e, w').


(** What a URL put on the queue by the link loop satisfies. *)
Definition followed `{Env} (start_url : string) (seen : gset string) (x : string) : Prop :=
  has_fragment x = false
  /\ (x ∉ seen)
  /\ exists n, netloc x = Some n /\ netloc start_url = Some n.

(** One iteration of the crawl either drops a queue head that was visited
    already, or visits the head: it audits it and may queue links found on it. *)
Inductive iteration `{Env} (start_url : string) (st st' : CrawlState) : Prop :=
| iter_skip u q :
    queue st = u :: q -> u ∈ visited st ->
    st' = {| visited := visited st; queue := q; results := results st |} ->
    iteration start_url st st'
| iter_visit u q res hrefs :
    queue st = u :: q -> u ∉ visited st -> url res = u ->
    st' = {| visited := {[u]} ∪ visited st;
             queue := enqueue_links start_url u ({[u]} ∪ visited st) hrefs q;
             results := (results st ++ [res])%list |} ->
    iteration start_url st st'.

(** The invariant of the crawl: the audited URLs are the visited ones, each
    once; the queue holds no URL twice and none that was visited; every URL
    met other than the start URL was put on the queue by the link loop. *)
Record crawl_inv `{Env} (start_url : string) (st : CrawlState) : Prop := {
  inv_audited : forall u, u ∈ map url (results st) <-> u ∈ visited st;
  inv_once : NoDup (map url (results st));
  inv_count : length (results st) = size (visited st);
  inv_queue_once : NoDup (queue st);
  inv_queue_fresh : forall u, u ∈ queue st -> u ∉ visited st;
  inv_followed : forall u, u ∈ queue st \/ u ∈ visited st ->
                   u = start_url \/ followed start_url ∅ u;
}.

(** The sizes of the waves run from [remaining] requests on. *)
Fixpoint wave_sizes (fuel : nat) (remaining : Z) : list Z :=
  match fuel with
  | O => []
  | S fuel' =>
      if (0 <? remaining)%Z then
        Z.min batch_size remaining :: wave_sizes fuel' (remaining - Z.min batch_size remaining)
      else []
  end.

Definition sum_sizes (ks : list Z) : Z := fold_right Z.add 0%Z ks.

(** Every wave takes [min(batch_size, remaining)] of the [users] requests,
    [remaining] being what the waves before it left. *)
Definition wave_rule (users : Z) (sizes : list Z) : Prop :=
  forall (i : nat) (k : Z), sizes !! i = Some k ->
    k = Z.min batch_size (users - sum_sizes (take i sizes)).

(** ** A small site to run the program on *)

Module Demo.

Definition all_headers : list (string * string) :=
  map (fun h => (h, "set")) SECURITY_HEADERS.

Definition page (hs : list (string * string)) (body : string) : string + Response :=
  inr {| status_code := 200; headers := hs; text := body |}.

(** The pages served; every other URL refuses the connection. *)
Definition site (u : string) : string + Response :=
  if String.eqb u "http://a.test/" then page [] "home"
  else if String.eqb u "http://a.test/#top" then page [] "home"
  else if String.eqb u "HTTP://a.test/" then page all_headers "leaf"
  else if String.eqb u "http://a.test/x" then page all_headers "leaf"
  else if String.eqb u "https://a.test/lower" then
    page [("content-security-policy", "default-src"); ("X-Frame-Options", "DENY")] "leaf"
  else if String.eqb u "http://a.test/slow" then
    inr {| status_code := 503; headers := []; text := "busy" |}
  else inl "connection refused".

Definition parse (body : string) : Soup :=
  if String.eqb body "home" then
    {| soup_title := Some (Some (codepoints "Home")); soup_meta_description := false;
       soup_h1 := true; soup_html := Some (Some "en");
       soup_img_alts := [None; Some "logo"; None];
       soup_hrefs := ["/x#sec"; "http://b.test/"; "/x"; "/slow"; "/"] |}
  else
    {| soup_title := None; soup_meta_description := true; soup_h1 := false;
       soup_html := None; soup_img_alts := []; soup_hrefs := [] |}.

(** Absolute links are kept, the others are appended to the host. *)
Definition join (base href : string) : option string :=
  if startswith "http" href then Some href
  else Some ("http://a.test" ++ href).

(** The text between the double slash and the next slash. *)
Definition location (u : string) : option string :=
  match partition_char "/" u with
  | (_, Some (String "/" rest)) => Some (fst (partition_char "/" rest))
  | _ => Some ""
  end.

(** The world is the clock: every reading advances it by a quarter second. *)
Definition env : Env := {|
  World := Z;
  time_time := fun w => (inject_Z w / 4, (w + 1)%Z)%Q;
  requests_get := fun u _ w => (site u, w);
  BeautifulSoup := parse;
  urljoin := join;
  netloc := location;
|}.

(** The crawl of the site after one and after two iterations. *)
Definition step1 : CrawlState * Z :=
  @crawl_body env "http://a.test/" (crawl_init "http://a.test/") 0%Z.

Definition step2 : CrawlState * Z :=
  @crawl_body env "http://a.test/" (fst step1) (snd step1).

End Demo.

(** ** Recommendations engine *)

(** [str(n)] of an int: its decimal digits. *)
Definition str_int (n : Z) : string := NilZero.string_of_int (Z.to_int n).

(** [sum(len(r.get("security", [])) for r in audit_results)]. *)
Definition sec_count (audit_results : list PageResult) : Z :=
  foldl Z.add 0%Z (map (fun r => len (security r)) audit_results).

(** [any(r.get(field) for r in audit_results)]: some record has a non-empty list. *)
Definition any_findings (field : PageResult -> list string)
    (audit_results : list PageResult) : bool :=
  existsb (fun r => match field r with [] => false | _ :: _ => true end) audit_results.

(** [load_summary.get("avg") and load_summary["avg"] > 1.5]. *)
Definition avg_above_target (load_summary : LoadSummary) : bool :=
  match avg load_summary with
  | Some a => negb (Qeq_bool a 0) && negb (Qle_bool a (3 # 2))
  | None => false
  end.

Definition security_advice : list string :=
  [ "Enable HTTPS and redirect HTTP to HTTPS.";
    "Add missing headers: Content-Security-Policy, Strict-Transport-Security, X-Frame-Options, X-Content-Type-Options." ].

Definition seo_advice : list string :=
  [ "Add a concise, unique <title> and meta description to every page.";
    "Ensure each page has exactly one <h1> that matches page intent." ].

Definition accessibility_advice : list string :=
  [ "Add meaningful alt text to informative images (skip decorative).";
    "Set <html lang=...> to the primary language of the content." ].

Definition infrastructure_advice : list string :=
  [ "Add a CDN for static assets; enable HTTP/2 and compression (gzip/brotli).";
    "Introduce server-side caching for expensive routes; consider a reverse proxy cache.";
    "Use connection pooling for DB; add read replicas if DB bound.";
    "Implement rate limiting and a queue for bursty write operations." ].

Definition capacity_ok : string :=
  "Current capacity looks okay; keep autoscaling rules in place for spikes.".

Definition general_advice : list string :=
  [ "Implement observability: SLIs/SLOs, structured logs, distributed tracing.";
    "Add automated CI checks for Lighthouse/axe-core and security headers." ].

(** The loop that removes repeated strings and keeps the first occurrences. *)
Fixpoint dedupe_loop (recs : list string) (seen : gset string) (deduped : list string)
    : list string :=
  match recs with
  | [] => deduped
  | r :: rest =>
      if bool_decide (r ∈ seen) then dedupe_loop rest seen deduped
      else dedupe_loop rest ({[r]} ∪ seen) (deduped ++ [r])%list
  end.

Section Recommendations.

(** [str(x)] of the value under [scaled["scaled_avg"]], a float or [None]. *)
Variable str_float : option Q -> string.

(** The f-string of the scaling advisory. *)
Definition autoscale_advice (scaled : ScaleEstimate) : string :=
  "Autoscale to ~" ++ str_int (servers scaled)
  ++ " instances to keep mean latency ~" ++ str_float (scaled_avg scaled)
  ++ "s under load.".

(** [recs] as it stands before the de-duplication. *)
Definition collected_advice (audit_results : list PageResult)
    (load_summary : LoadSummary) (scaled : ScaleEstimate) : list string :=
  ((if negb (sec_count audit_results =? 0)%Z then security_advice else [])
   ++ (if any_findings seo audit_results then seo_advice else [])
   ++ (if any_findings accessibility audit_results then accessibility_advice else [])
   ++ (if avg_above_target load_summary
       then autoscale_advice scaled :: infrastructure_advice
       else [capacity_ok])
   ++ general_advice)%list.

Definition build_recommendations (audit_results : list PageResult)
    (load_summary : LoadSummary) (scaled : ScaleEstimate) : list string :=
  dedupe_loop (collected_advice audit_results load_summary scaled) ∅ [].

End Recommendations.

(** ** The request handler *)


(** The three counters of findings, in the order security, seo, accessibility. *)
Definition issue_counts (results : list PageResult) : Z * Z * Z :=
  foldl (fun counts r =>
           let '(sec, se, acc) := counts in
           (sec + len (security r), se + len (seo r), acc + len (accessibility r))%Z)
        (0, 0, 0)%Z results.

(** [sum(counts.values())]. *)
Definition total_issues (results : list PageResult) : Z :=
  let '(sec, se, acc) := issue_counts results in (0 + sec + se + acc)%Z.

(** [x or 0] on an optional float. *)
Definition or_zero (x : option Q) : Q :=
  match x with
  | Some t => if Qeq_bool t 0 then 0%Q else t
  | None => 0%Q
  end.


(** [range(a, b)]. *)
Definition py_range (a b : Z) : list Z :=
  map (fun i => (a + Z.of_nat i)%Z) (seq 0 (Z.to_nat (b - a))).

(** The curve [round(base / max(1, s), 3)] for [s] from 1 to
    [max(1, servers + 4)]; the quotient is a float quotient. *)
Definition scale_points (load_summary : LoadSummary) (scaled : ScaleEstimate) : list Q :=
  let max_servers := Z.max 1 (servers scaled + 4) in
  let base := or_zero (avg load_summary) in
  map (fun s => py_round3 (float_div base (inject_Z (Z.max 1 s))))
      (py_range 1 (max_servers + 1)).

(** [histo[k]] on a [Counter]: the count stored under [k], 0 for a missing key. *)
Fixpoint counter_get (k : Q) (c : list (Q * Z)) : Z :=
  match c with
  | [] => 0%Z
  | (k', n) :: c' => if Qeq_bool k' k then n else counter_get k c'
  end.

(** [[histo[k] for k in sorted(histo.keys())]]. *)
Definition hist_values (histo : list (Q * Z)) : list Z :=
  map (fun k => counter_get k histo) (sorted (map fst histo)).




(** ** More vocabulary *)

(** The number of samples whose request raised. *)
Definition is_error (r : LoadSample) : bool :=
  match sample_status r with
  | StatusError => true
  | StatusCode _ => false
  end.

Definition error_count (rs : list LoadSample) : Z :=
  len (filter (fun r => is_error r = true) rs).

(** A sample carries a time exactly when its request did not raise. *)
Definition sample_consistent (s : LoadSample) : Prop :=
  sample_time s = None <-> sample_status s = StatusError.

(** The waves of [users] requests in closed form: full waves, then the rest. *)
Definition full_waves (users : Z) : list Z :=
  if (users <=? 0)%Z then []
  else (repeat batch_size (Z.to_nat (users / batch_size))
        ++ (if (users mod batch_size =? 0)%Z then [] else [users mod batch_size]%Z))%list.


(** The first occurrences of the strings of a list, in the order of the
    list: the head, then the first occurrences in the rest that differ from
    it. *)
Fixpoint first_occurrences (l : list string) : list string :=
  match l with
  | [] => []
  | x :: l' => x :: filter (fun y => y <> x) (first_occurrences l')
  end.

(** A list of rationals never increases. *)
Definition non_increasing (xs : list Q) : Prop :=
  forall (i j : nat) (x y : Q), (i <= j)%nat -> xs !! i = Some x -> xs !! j = Some y -> (y <= x)%Q.

(** A stand-in for [str] on floats, to run the handler on the small site. *)
Definition demo_str_float (x : option Q) : string :=
  match x with
  | None => "None"
  | Some _ => "1.5"
  end.

(** ** The program on concrete inputs *)

Example py_round_ties :
  (py_round (5 # 2), py_round (7 # 2), py_round (-5 # 2), py_round (26 # 10)) = (2, 4, -2, 3).
Proof. reflexivity. Qed.

Example py_int_truncates : (py_int (26 # 10), py_int (-26 # 10)) = (2, -2).
Proof. reflexivity. Qed.

(** The float 0.1, and 0.1 + 0.2 = 0.30000000000000004. *)
Example to_float_tenth :
  (to_float (1 # 10) == 3602879701896397 # 36028797018963968)%Q
  /\ (float_add (1 # 10) (2 # 10) == to_float (3 # 10) + pow2 (-54))%Q.
Proof. split; vm_compute; reflexivity. Qed.

(** Ties go to the even double, and the numbers below 2^-1022 are spaced
    2^-1074 apart. *)
Example to_float_ties :
  (to_float (1 + pow2 (-53)) == 1)%Q
  /\ (to_float (1 + 3 * pow2 (-53)) == 1 + pow2 (-51))%Q
  /\ (to_float (pow2 (-1075)) == 0)%Q
  /\ (to_float (3 * pow2 (-1075)) == pow2 (-1073))%Q.
Proof. repeat split; vm_compute; reflexivity. Qed.

(** [round(x, 3)] rounds the double, not the decimal it was written as:
    round(0.0125, 3) is 0.013 and round(2.675, 3) is 2.675. *)
Example py_round3_examples :
  (py_round3 (125 # 10000), round3_exact (125 # 10000), py_round3 (2675 # 1000))
  = ((13 # 1)/ 1000, (12 # 1) / 1000, (2675 # 1) / 1000)%Q.
Proof. vm_compute. reflexivity. Qed.

Example py_sum_rounds :
  (py_round3 (float_div (py_sum [1 # 1000; 1 # 100]%Q) 2) == 5 # 1000)%Q.
Proof. vm_compute. reflexivity. Qed.

Example histogram_buckets :
  map (fun kv => (Qred (fst kv), snd kv))
      (histogram (summarize_load_results
         (map timed [12 # 100; 15 # 100; 27 # 100; 6 # 10; to_float (9 # 10) - pow2 (-53)]%Q)))
  = [((1 # 10)%Q, 2); ((1 # 5)%Q, 1); ((3 # 5)%Q, 1); ((9 # 10)%Q, 1)].
Proof. vm_compute. reflexivity. Qed.

Example summary_counts :
  let s := summarize_load_results
             [ {| sample_status := StatusCode 200; sample_time := Some (1 # 4)%Q |};
               {| sample_status := StatusError; sample_time := None |};
               {| sample_status := StatusCode 500; sample_time := Some (3 # 4)%Q |} ] in
  (total s, success s, failures s) = (3, 1, 2).
Proof. reflexivity. Qed.

Example hostname_examples :
  (hostname_of_netloc "user:pw@Example.COM:8080", hostname_of_netloc "[::1]:80",
   hostname_of_netloc "")
  = (Some "example.com", Some "::1", None).
Proof. reflexivity. Qed.

Example url_scheme_examples :
  (url_scheme "HTTP://a.test/", url_scheme "https://a.test/", url_scheme "/x:y",
   url_scheme " http://a.test/", url_scheme (String "h" (String "009" "ttp://a.test/")))
  = ("http", "https", "", "http", "http").
Proof. reflexivity. Qed.

Example demo_crawl :
  option_map (map url) (fst (@crawl_site Demo.env 6 "http://a.test/" 5 0))
  = Some ["http://a.test/"; "http://a.test/x"; "http://a.test/slow"].
Proof. vm_compute. reflexivity. Qed.

Example demo_crawl_limited :
  option_map (map url) (fst (@crawl_site Demo.env 3 "http://a.test/" 2 0))
  = Some ["http://a.test/"; "http://a.test/x"].
Proof. vm_compute. reflexivity. Qed.

Example demo_accessibility :
  accessibility (fst (@analyze_page Demo.env "http://a.test/" 0))
  = ["Image missing alt attribute"].
Proof. vm_compute. reflexivity. Qed.

(** The white space of [str.strip()] goes beyond ASCII: a title that is one
    no-break space is blank. *)
Example strip_examples :
  (strip_nonempty (codepoints " Home "), strip_nonempty (codepoints "  "),
   strip_nonempty [160%N], strip_nonempty [8195%N; 12288%N], strip_nonempty [8203%N])
  = (true, false, false, false, true).
Proof. reflexivity. Qed.

(** The integer part of the float product 0.95 * (n - 1) is that of the
    exact product. *)
Example p95_index_float :
  forallb (fun n => (py_int (float_mul (95 # 100) (inject_Z n))
                     =? py_int ((95 # 100) * inject_Z n))%Z)
          (map Z.of_nat (seq 0 2000)) = true.
Proof. vm_compute. reflexivity. Qed.

Example demo_waves :
  option_map (map len) (fst (@load_waves Demo.env 4 "http://a.test/" 700 0))
  = Some [300; 300; 100].
Proof. vm_compute. reflexivity. Qed.

(** ** Facts about the numerics *)

Lemma py_round_near (x : Q) : (Qabs (inject_Z (py_round x) - x) <= 1 # 2)%Q.
Proof.
  unfold py_round.
  pose proof (Qfloor_le x) as Hlo.
  pose proof (Qlt_floor x) as Hhi.
  rewrite inject_Z_plus in Hhi. change (inject_Z 1) with 1%Q in Hhi.
  apply Qabs_Qle_condition.
  destruct (Qcompare_spec (x - inject_Z (Qfloor x)) (1 # 2)) as [He | Hl | Hg].
  - destruct (Z.even (Qfloor x));
      [| rewrite inject_Z_plus; change (inject_Z 1) with 1%Q]; split; lra.
  - split; lra.
  - rewrite inject_Z_plus. change (inject_Z 1) with 1%Q. split; lra.
Qed.

#[global] Instance py_round_proper : Proper (Qeq ==> eq) py_round.
Proof.
  intros x y Hxy. unfold py_round.
  assert (Hf : Qfloor x = Qfloor y) by now rewrite Hxy.
  rewrite Hf.
  assert (Hc : Qcompare (x - inject_Z (Qfloor y)) (1 # 2)
               = Qcompare (y - inject_Z (Qfloor y)) (1 # 2)) by now rewrite Hxy.
  now rewrite Hc.
Qed.

Lemma py_round_bounds (x : Q) : Qfloor x <= py_round x <= Qfloor x + 1.
Proof.
  unfold py_round.
  destruct (Qcompare (x - inject_Z (Qfloor x)) (1 # 2)); [destruct (Z.even (Qfloor x)) | |]; lia.
Qed.

Lemma py_round_monotone (x y : Q) : (x <= y)%Q -> py_round x <= py_round y.
Proof.
  intros Hxy. pose proof (Qfloor_resp_le x y Hxy) as Hfl.
  destruct (Z.eq_dec (Qfloor x) (Qfloor y)) as [Heq | Hne].
  - unfold py_round. rewrite <- Heq.
    destruct (Qcompare_spec (x - inject_Z (Qfloor x)) (1 # 2)) as [Hx | Hx | Hx];
      destruct (Qcompare_spec (y - inject_Z (Qfloor x)) (1 # 2)) as [Hy | Hy | Hy];
      try destruct (Z.even (Qfloor x)); try lia; exfalso; lra.
  - pose proof (py_round_bounds x). pose proof (py_round_bounds y). lia.
Qed.

(** *** Rounding to the nearest double *)

Lemma py_round_inject_Z (m : Z) : py_round (inject_Z m) = m.
Proof.
  unfold py_round. rewrite Qfloor_Z.
  destruct (Qcompare_spec (inject_Z m - inject_Z m) (1 # 2)) as [H | H | H]; [lra | reflexivity | lra].
Qed.

Lemma pow2_pos (k : Z) : (0 < pow2 k)%Q.
Proof. apply Qpower_0_lt. reflexivity. Qed.

Lemma pow2_add (a b : Z) : (pow2 (a + b) == pow2 a * pow2 b)%Q.
Proof. apply Qpower_plus. discriminate. Qed.

Lemma pow2_le (a b : Z) : a <= b -> (pow2 a <= pow2 b)%Q.
Proof. intros H. apply Qpower_le_compat_l; [assumption | discriminate]. Qed.

Lemma pow2_lt (a b : Z) : a < b -> (pow2 a < pow2 b)%Q.
Proof. intros H. apply Qpower_lt_compat_l; [assumption | reflexivity]. Qed.

Lemma pow2_inject_Z (a : Z) : 0 <= a -> (inject_Z (2 ^ a) == pow2 a)%Q.
Proof. intros H. now apply Zpower_Qpower. Qed.

Lemma pow2_succ (a : Z) : (pow2 (a + 1) == 2 * pow2 a)%Q.
Proof. rewrite pow2_add. change (pow2 1) with 2%Q. lra. Qed.

(** [ilog2 x] is the integer logarithm of a positive [x]. *)
Lemma ilog2_spec (x : Q) :
  (0 < x)%Q -> (pow2 (ilog2 x) <= x)%Q /\ (x < pow2 (ilog2 x + 1))%Q.
Proof.
  intros Hx. destruct x as [n d].
  assert (Hn : 0 < n) by (unfold Qlt in Hx; cbn in Hx; lia).
  unfold ilog2. cbn [Qnum Qden].
  set (a := Z.log2 n). set (b := Z.log2 (Z.pos d)).
  destruct (Z.log2_spec n Hn) as [Ha1 Ha2]. fold a in Ha1, Ha2.
  destruct (Z.log2_spec (Z.pos d) eq_refl) as [Hb1 Hb2]. fold b in Hb1, Hb2.
  assert (Ha0 : 0 <= a) by apply Z.log2_nonneg.
  assert (Hb0 : 0 <= b) by apply Z.log2_nonneg.
  assert (Hnd : (n # d == inject_Z n / inject_Z (Z.pos d))%Q) by apply Qmake_Qdiv.
  assert (Hd : (0 < inject_Z (Z.pos d))%Q) by (rewrite <- (Zlt_Qlt 0); lia).
  rewrite Zle_Qle, pow2_inject_Z in Ha1, Hb1 by assumption.
  rewrite Zlt_Qlt in Ha2, Hb2.
  rewrite <- Z.add_1_r, pow2_inject_Z in Ha2, Hb2 by lia.
  pose proof (pow2_pos a). pose proof (pow2_pos b). pose proof (pow2_pos (a - b)).
  assert (Hab : (pow2 a == pow2 (a - b) * pow2 b)%Q).
  { rewrite <- pow2_add. now replace (a - b + b) with a by lia. }
  rewrite pow2_succ in Ha2, Hb2.
  set (N := inject_Z n) in *. set (D := inject_Z (Z.pos d)) in *.
  set (pa := pow2 a) in *. set (pb := pow2 b) in *. set (pab := pow2 (a - b)) in *.
  assert (Hup : (N / D < 2 * pab)%Q).
  { apply Qlt_shift_div_r; [assumption |]. nra. }
  assert (Hlo : (pab < 2 * (N / D))%Q).
  { assert (Hq : (pab * D < 2 * N)%Q) by nra.
    apply Qlt_shift_div_l with (c := D) in Hq; [| assumption].
    unfold Qdiv in *. lra. }
  subst pab. destruct (Qle_bool (pow2 (a - b)) (n # d)) eqn:Hc.
  - apply Qle_bool_iff in Hc. split; [exact Hc |].
    rewrite pow2_succ, Hnd. exact Hup.
  - assert (Hlt : (n # d < pow2 (a - b))%Q).
    { apply Qnot_le_lt. intros Hle. apply Qle_bool_iff in Hle. congruence. }
    replace (a - b - 1 + 1) with (a - b) by lia. split; [| exact Hlt].
    assert (Hs : (pow2 (a - b) == 2 * pow2 (a - b - 1))%Q).
    { rewrite <- pow2_succ. now replace (a - b - 1 + 1) with (a - b) by lia. }
    rewrite Hnd. lra.
Qed.

Lemma ilog2_unique (x : Q) (k : Z) :
  (pow2 k <= x)%Q -> (x < pow2 (k + 1))%Q -> ilog2 x = k.
Proof.
  intros Hlo Hhi.
  assert (Hx : (0 < x)%Q) by (pose proof (pow2_pos k); lra).
  destruct (ilog2_spec x Hx) as [Hl Hh].
  destruct (Z.lt_trichotomy (ilog2 x) k) as [Hlt | [Heq | Hgt]]; [| assumption |].
  - pose proof (pow2_le (ilog2 x + 1) k ltac:(lia)). lra.
  - pose proof (pow2_le (k + 1) (ilog2 x) ltac:(lia)). lra.
Qed.

Lemma ilog2_monotone (x y : Q) : (0 < x)%Q -> (x <= y)%Q -> ilog2 x <= ilog2 y.
Proof.
  intros Hx Hxy.
  destruct (ilog2_spec x Hx) as [Hl Hh].
  destruct (ilog2_spec y ltac:(lra)) as [Hl' Hh'].
  destruct (Z_le_gt_dec (ilog2 x) (ilog2 y)) as [Hle | Hgt]; [assumption |].
  pose proof (pow2_le (ilog2 y + 1) (ilog2 x) ltac:(lia)). lra.
Qed.

(** The significand [x / 2^e] lies below [2^53], and at or above [2^52]
    unless [x] is subnormal. *)
Lemma significand_bounds (x : Q) :
  (0 < x)%Q ->
  let e := ulp_exponent x in
  (x / pow2 e < pow2 53)%Q /\ (-1074 < e -> (pow2 52 <= x / pow2 e)%Q).
Proof.
  intros Hx e. destruct (ilog2_spec x Hx) as [Hl Hh].
  pose proof (pow2_pos e) as He.
  split.
  - apply Qlt_shift_div_r; [assumption |]. rewrite <- pow2_add.
    pose proof (pow2_le (ilog2 x + 1) (53 + e) ltac:(unfold e, ulp_exponent; lia)). lra.
  - intros Hn. apply Qle_shift_div_l; [assumption |]. rewrite <- pow2_add.
    replace (52 + e) with (ilog2 x) by (unfold e, ulp_exponent in *; lia). assumption.
Qed.

Lemma round_pos_nonneg (x : Q) : (0 < x)%Q -> (0 <= round_pos x)%Q.
Proof.
  intros Hx. unfold round_pos. pose proof (pow2_pos (ulp_exponent x)) as He.
  assert (Hm : 0 <= py_round (x / pow2 (ulp_exponent x))).
  { rewrite <- (py_round_inject_Z 0). apply py_round_monotone.
    apply Qle_shift_div_l; [assumption |]. change (inject_Z 0) with 0%Q. lra. }
  rewrite Zle_Qle in Hm. change (inject_Z 0) with 0%Q in Hm. nra.
Qed.

Lemma round_pos_monotone (x y : Q) :
  (0 < x)%Q -> (x <= y)%Q -> (round_pos x <= round_pos y)%Q.
Proof.
  intros Hx Hxy. assert (Hy : (0 < y)%Q) by lra.
  pose proof (ilog2_monotone x y Hx Hxy) as Hlog.
  destruct (significand_bounds x Hx) as [Hxu Hxl].
  destruct (significand_bounds y Hy) as [Hyu Hyl].
  unfold round_pos.
  set (ex := ulp_exponent x) in *. set (ey := ulp_exponent y) in *.
  pose proof (pow2_pos ex) as Hex. pose proof (pow2_pos ey) as Hey.
  assert (Hle : ex <= ey) by (unfold ex, ey, ulp_exponent; lia).
  assert (Hlo : -1074 <= ex) by (unfold ex, ulp_exponent; lia).
  destruct (Z.eq_dec ex ey) as [Heq | Hne].
  - rewrite <- Heq.
    assert (Hm : py_round (x / pow2 ex) <= py_round (y / pow2 ex)).
    { apply py_round_monotone. unfold Qdiv.
      apply Qmult_le_compat_r; [assumption |]. apply Qlt_le_weak, Qinv_lt_0_compat, Hex. }
    rewrite Zle_Qle in Hm. nra.
  - assert (Hmx : py_round (x / pow2 ex) <= 2 ^ 53).
    { rewrite <- (py_round_inject_Z (2 ^ 53)). apply py_round_monotone.
      rewrite pow2_inject_Z by lia. apply Qlt_le_weak, Hxu. }
    assert (Hmy : 2 ^ 52 <= py_round (y / pow2 ey)).
    { rewrite <- (py_round_inject_Z (2 ^ 52)). apply py_round_monotone.
      rewrite pow2_inject_Z by lia. apply Hyl. lia. }
    rewrite Zle_Qle, pow2_inject_Z in Hmx, Hmy by lia.
    pose proof (pow2_le (53 + ex) (52 + ey) ltac:(lia)) as Hp.
    rewrite !pow2_add in Hp.
    set (mx := inject_Z (py_round (x / pow2 ex))) in *.
    set (my := inject_Z (py_round (y / pow2 ey))) in *.
    pose proof (pow2_pos 53). pose proof (pow2_pos 52).
    apply Qle_trans with (pow2 53 * pow2 ex)%Q; [nra |].
    apply Qle_trans with (pow2 52 * pow2 ey)%Q; [assumption | nra].
Qed.

#[global] Instance to_float_proper : Proper (Qeq ==> eq) to_float.
Proof.
  intros x y Hxy. unfold to_float.
  assert (Hc : Qcompare x 0 = Qcompare y 0) by now rewrite Hxy.
  rewrite Hc, (Qred_complete x y Hxy), (Qred_complete (- x) (- y)); [reflexivity |].
  now rewrite Hxy.
Qed.

Lemma to_float_pos (x : Q) : (0 < x)%Q -> to_float x = round_pos (Qred x).
Proof.
  intros Hx. unfold to_float.
  destruct (Qcompare_spec x 0) as [H | H | H]; [lra | lra | reflexivity].
Qed.

Lemma to_float_neg (x : Q) : (x < 0)%Q -> to_float x = (- round_pos (Qred (- x)))%Q.
Proof.
  intros Hx. unfold to_float.
  destruct (Qcompare_spec x 0) as [H | H | H]; [lra | reflexivity | lra].
Qed.

Lemma to_float_zero (x : Q) : (x == 0)%Q -> to_float x = 0%Q.
Proof.
  intros Hx. unfold to_float.
  destruct (Qcompare_spec x 0) as [H | H | H]; [reflexivity | lra | lra].
Qed.

Lemma to_float_nonneg (x : Q) : (0 <= x)%Q -> (0 <= to_float x)%Q.
Proof.
  intros Hx. destruct (Qlt_le_dec 0 x) as [Hp | Hz].
  - rewrite to_float_pos by assumption. apply round_pos_nonneg. now rewrite Qred_correct.
  - rewrite to_float_zero; lra.
Qed.

Lemma to_float_opp (x : Q) : (to_float (- x) == - to_float x)%Q.
Proof.
  destruct (Q_dec x 0) as [[Hn | Hp] | Hz].
  - rewrite (to_float_neg x Hn), to_float_pos by lra. ring.
  - rewrite (to_float_pos x Hp), to_float_neg by lra.
    rewrite (Qred_complete (- - x) x); [reflexivity | ring].
  - rewrite (to_float_zero x Hz), to_float_zero; lra.
Qed.

(** Rounding to the nearest double is monotone. *)
Lemma to_float_monotone (x y : Q) : (x <= y)%Q -> (to_float x <= to_float y)%Q.
Proof.
  intros Hxy.
  destruct (Qlt_le_dec 0 x) as [Hx | Hx].
  - rewrite !to_float_pos by lra.
    apply round_pos_monotone; rewrite !Qred_correct; assumption.
  - destruct (Qlt_le_dec 0 y) as [Hy | Hy].
    + apply Qle_trans with 0%Q; [| apply to_float_nonneg; lra].
      pose proof (to_float_nonneg (- x) ltac:(lra)) as H.
      rewrite to_float_opp in H. lra.
    + destruct (Qlt_le_dec y 0) as [Hy' | Hy'].
      * rewrite !to_float_neg by lra.
        apply Qopp_le_compat. apply round_pos_monotone; rewrite !Qred_correct; lra.
      * rewrite (to_float_zero y) by lra.
        pose proof (to_float_nonneg (- x) ltac:(lra)) as H.
        rewrite to_float_opp in H. lra.
Qed.

Lemma ulp_exponent_fixed (y : Q) (m e : Z) :
  (y == inject_Z m * pow2 e)%Q -> -1074 <= e -> 0 < m < 2 ^ 53 ->
  (2 ^ 52 <= m \/ e = -1074) -> ulp_exponent y = e.
Proof.
  intros Hy He [Hm0 Hm] Hn.
  pose proof (pow2_pos e) as Hpe.
  rewrite Zlt_Qlt in Hm0, Hm. rewrite pow2_inject_Z in Hm by lia.
  change (inject_Z 0) with 0%Q in Hm0.
  set (M := inject_Z m) in *.
  assert (Hpos : (0 < y)%Q) by (rewrite Hy; nra).
  assert (Hhi : (y < pow2 (53 + e))%Q) by (rewrite Hy, pow2_add; nra).
  destruct (ilog2_spec y Hpos) as [Hl Hh].
  assert (Hlog : ilog2 y < 53 + e).
  { destruct (Z_lt_ge_dec (ilog2 y) (53 + e)) as [H | H]; [assumption |].
    pose proof (pow2_le (53 + e) (ilog2 y) ltac:(lia)). lra. }
  unfold ulp_exponent.
  destruct (Z_le_gt_dec (2 ^ 52) m) as [Hbig | Hsmall].
  - assert (Hlo : (pow2 (52 + e) <= y)%Q).
    { rewrite Zle_Qle, pow2_inject_Z in Hbig by lia. fold M in Hbig.
      rewrite Hy, pow2_add. nra. }
    assert (Hlog' : 52 + e <= ilog2 y).
    { destruct (Z_le_gt_dec (52 + e) (ilog2 y)) as [H | H]; [assumption |].
      pose proof (pow2_le (ilog2 y + 1) (52 + e) ltac:(lia)). lra. }
    lia.
  - destruct Hn as [Hn | ->]; [lia |]. lia.
Qed.

Lemma round_pos_fixed (y : Q) (m e : Z) :
  (y == inject_Z m * pow2 e)%Q -> -1074 <= e -> 0 < m < 2 ^ 53 ->
  (2 ^ 52 <= m \/ e = -1074) -> (round_pos y == y)%Q.
Proof.
  intros Hy He Hm Hn. unfold round_pos.
  rewrite (ulp_exponent_fixed y m e Hy He Hm Hn).
  assert (Hq : (y / pow2 e == inject_Z m)%Q).
  { rewrite Hy. field. pose proof (pow2_pos e). lra. }
  rewrite Hq, py_round_inject_Z. now rewrite Hy.
Qed.

(** A rounded value is a double: rounding it again changes nothing. *)
Lemma round_pos_idempotent (x y : Q) :
  (0 < x)%Q -> (y == round_pos x)%Q -> (0 < y)%Q -> (round_pos y == y)%Q.
Proof.
  intros Hx Hy Hpos.
  destruct (significand_bounds x Hx) as [Hu Hl].
  unfold round_pos in Hy.
  set (e := ulp_exponent x) in *. set (m := py_round (x / pow2 e)) in *.
  pose proof (pow2_pos e) as Hpe.
  assert (He : -1074 <= e) by (unfold e, ulp_exponent; lia).
  assert (Hmu : m <= 2 ^ 53).
  { unfold m. rewrite <- (py_round_inject_Z (2 ^ 53)). apply py_round_monotone.
    rewrite pow2_inject_Z by lia. apply Qlt_le_weak, Hu. }
  assert (Hm0 : 0 < m).
  { destruct (Z_lt_ge_dec 0 m) as [H | H]; [assumption |].
    exfalso. assert (Hm : (inject_Z m <= 0)%Q)
      by (change 0%Q with (inject_Z 0); rewrite <- Zle_Qle; lia).
    rewrite Hy in Hpos. nra. }
  destruct (Z.eq_dec m (2 ^ 53)) as [Htop | Hlt].
  - apply (round_pos_fixed y (2 ^ 52) (e + 1)); [| lia | lia | left; lia].
    rewrite Hy, Htop, pow2_succ, !pow2_inject_Z by lia.
    rewrite (pow2_succ 52). lra.
  - apply (round_pos_fixed y m e); [assumption | assumption | lia |].
    destruct (Z.eq_dec e (-1074)) as [-> | Hne]; [now right | left].
    unfold m. rewrite <- (py_round_inject_Z (2 ^ 52)). apply py_round_monotone.
    rewrite pow2_inject_Z by lia. apply Hl. lia.
Qed.

Lemma to_float_idempotent (x : Q) : (to_float (to_float x) == to_float x)%Q.
Proof.
  assert (Hpos : forall z, (0 < z)%Q -> (to_float (to_float z) == to_float z)%Q).
  { intros z Hz. rewrite (to_float_pos z Hz).
    assert (Hr : (0 < Qred z)%Q) by now rewrite Qred_correct.
    pose proof (round_pos_nonneg (Qred z) Hr) as Hn.
    destruct (Qlt_le_dec 0 (round_pos (Qred z))) as [Hp | Hz0].
    - rewrite to_float_pos by assumption.
      rewrite <- (Qred_correct (round_pos (Qred z))) at 2.
      apply (round_pos_idempotent (Qred z)); [assumption | apply Qred_correct |].
      now rewrite Qred_correct.
    - rewrite to_float_zero; lra. }
  destruct (Q_dec x 0) as [[Hn | Hp] | Hz].
  - rewrite (to_float_neg x Hn), <- (to_float_pos (- x)) by lra.
    rewrite to_float_opp, Hpos by lra. reflexivity.
  - now apply Hpos.
  - rewrite (to_float_zero x Hz). reflexivity.
Qed.

(** Above the subnormal range the relative error of the rounding is at most
    [2^-53]. *)
Lemma round_pos_error (x : Q) :
  (pow2 (-1022) <= x)%Q ->
  (x * (1 - pow2 (-53)) <= round_pos x <= x * (1 + pow2 (-53)))%Q.
Proof.
  intros Hx. assert (Hpos : (0 < x)%Q) by (pose proof (pow2_pos (-1022)); lra).
  destruct (ilog2_spec x Hpos) as [Hl Hh].
  assert (Hlog : -1022 <= ilog2 x).
  { destruct (Z_le_gt_dec (-1022) (ilog2 x)) as [H | H]; [assumption |].
    pose proof (pow2_le (ilog2 x + 1) (-1022) ltac:(lia)). lra. }
  unfold round_pos.
  assert (He : ulp_exponent x = ilog2 x - 52) by (unfold ulp_exponent; lia).
  set (e := ulp_exponent x) in *. pose proof (pow2_pos e) as Hpe.
  assert (HM : (pow2 52 <= x / pow2 e)%Q).
  { apply Qle_shift_div_l; [assumption |]. rewrite <- pow2_add.
    now replace (52 + e) with (ilog2 x) by lia. }
  pose proof (py_round_near (x / pow2 e)) as Hn.
  apply Qabs_Qle_condition in Hn. destruct Hn as [Hn Hn'].
  assert (Hhalf : (pow2 52 * pow2 (-53) == 1 # 2)%Q) by reflexivity.
  assert (Hxe : (x == x / pow2 e * pow2 e)%Q) by (field; lra).
  set (M := (x / pow2 e)%Q) in *. set (r := inject_Z (py_round M)) in *.
  pose proof (pow2_pos (-53)) as Hp53. pose proof (pow2_pos 52) as Hp52.
  assert (Hr : (M * (1 - pow2 (-53)) <= r <= M * (1 + pow2 (-53)))%Q) by (split; nra).
  split.
  - rewrite Hxe at 1. nra.
  - rewrite Hxe at 1. nra.
Qed.

Lemma to_float_error (x : Q) :
  (pow2 (-1022) <= x)%Q ->
  (x * (1 - pow2 (-53)) <= to_float x <= x * (1 + pow2 (-53)))%Q.
Proof.
  intros Hx. pose proof (pow2_pos (-1022)). rewrite to_float_pos by lra.
  assert (Hr : (Qred x == x)%Q) by apply Qred_correct.
  destruct (round_pos_error (Qred x)) as [Hl Hu]; [now rewrite Hr |].
  set (R := round_pos (Qred x)) in *. set (y := Qred x) in *.
  set (eps := pow2 (-53)) in *. split; nra.
Qed.

Lemma pow2_min_normal_le_one : (pow2 (-1022) <= 1)%Q.
Proof. pose proof (pow2_le (-1022) 0 ltac:(lia)) as H. exact H. Qed.

Lemma to_float_one : (to_float 1 == 1)%Q.
Proof. vm_compute. reflexivity. Qed.

#[global] Instance to_float_proper_Qeq : Proper (Qeq ==> Qeq) to_float.
Proof. intros x y Hxy. now rewrite (to_float_proper x y Hxy). Qed.

#[global] Instance float_div_proper : Proper (Qeq ==> Qeq ==> eq) float_div.
Proof. intros x x' Hx y y' Hy. unfold float_div. now rewrite Hx, Hy. Qed.

Lemma float_div_idempotent (x y : Q) : (to_float (float_div x y) == float_div x y)%Q.
Proof. apply to_float_idempotent. Qed.

(** *** Rounding to 3 decimal places *)

Lemma round3_exact_rounded (x : Q) : rounded_to_3dp (round3_exact x) x.
Proof.
  split.
  - exists (py_round (x * 1000)). reflexivity.
  - unfold round3_exact.
    pose proof (py_round_near (x * 1000)) as Hn.
    apply Qabs_Qle_condition in Hn. apply Qabs_Qle_condition.
    set (k := inject_Z (py_round (x * 1000))) in *.
    unfold Qdiv. change (/ 1000)%Q with (1 # 1000)%Q.
    split; lra.
Qed.

#[global] Instance round3_exact_proper : Proper (Qeq ==> eq) round3_exact.
Proof.
  intros x y Hxy. unfold round3_exact.
  assert (H : py_round (x * 1000) = py_round (y * 1000)) by now rewrite Hxy.
  now rewrite H.
Qed.

#[global] Instance py_round3_proper : Proper (Qeq ==> Qeq) py_round3.
Proof. intros x y Hxy. unfold py_round3. now rewrite (to_float_proper x y Hxy). Qed.

Lemma round3_exact_monotone (x y : Q) : (x <= y)%Q -> (round3_exact x <= round3_exact y)%Q.
Proof.
  intros Hxy. unfold round3_exact.
  assert (Hr : py_round (x * 1000) <= py_round (y * 1000)) by (apply py_round_monotone; lra).
  rewrite Zle_Qle in Hr.
  unfold Qdiv. change (/ 1000)%Q with (1 # 1000)%Q. lra.
Qed.

Lemma py_round3_monotone (x y : Q) : (x <= y)%Q -> (py_round3 x <= py_round3 y)%Q.
Proof. intros Hxy. apply round3_exact_monotone, to_float_monotone, Hxy. Qed.

Lemma py_round3_zero : (py_round3 0 == 0)%Q.
Proof. reflexivity. Qed.

(** The result of [round(x, 3)] on a float quotient is that quotient rounded
    to 3 decimal places. *)
Lemma py_round3_rounded (x y : Q) :
  rounded_to_3dp (py_round3 (float_div x y)) (float_div x y).
Proof.
  unfold py_round3. destruct (round3_exact_rounded (to_float (float_div x y))) as [Hk Hd].
  split; [exact Hk |].
  pose proof (float_div_idempotent x y) as Hi.
  apply Qabs_Qle_condition in Hd. apply Qabs_Qle_condition. lra.
Qed.

(** *** Sorting *)

Lemma sorted_insert_perm (x : Q) (l : list Q) : Permutation (sorted_insert x l) (x :: l).
Proof.
  induction l as [| y l IH]; simpl; [reflexivity |].
  destruct (Qle_bool x y); [reflexivity |].
  rewrite IH. apply perm_swap.
Qed.

Lemma sorted_perm (xs : list Q) : Permutation (sorted xs) xs.
Proof.
  induction xs as [| x xs IH]; simpl; [reflexivity |].
  rewrite sorted_insert_perm. now constructor.
Qed.

Lemma sorted_insert_hd (x a : Q) (l : list Q) :
  (a <= x)%Q -> HdRel Qle a l -> HdRel Qle a (sorted_insert x l).
Proof.
  intros Hax Hl. destruct l as [| y l]; simpl.
  - now constructor.
  - destruct (Qle_bool x y); constructor; [assumption | now inversion Hl].
Qed.

Lemma sorted_insert_sorted (x : Q) (l : list Q) :
  Sorted Qle l -> Sorted Qle (sorted_insert x l).
Proof.
  induction 1 as [| y l Hs IH Hhd]; simpl.
  - repeat constructor.
  - destruct (Qle_bool x y) eqn:Hxy.
    + apply Qle_bool_iff in Hxy. repeat constructor; assumption.
    + constructor; [assumption |].
      apply sorted_insert_hd; [| assumption].
      destruct (Qlt_le_dec y x) as [Hlt | Hle]; [now apply Qlt_le_weak |].
      apply Qle_bool_iff in Hle. congruence.
Qed.

Lemma sorted_sorted (xs : list Q) : Sorted Qle (sorted xs).
Proof.
  induction xs as [| x xs IH]; simpl; [constructor |].
  now apply sorted_insert_sorted.
Qed.


(** *** Ranks: the element at an index of a sorted list does not depend on
    how ties were arranged *)

Lemma count_lt_perm (v : Q) (s s' : list Q) :
  Permutation s s' -> count_lt v s = count_lt v s'.
Proof.
  unfold count_lt. induction 1 as [| x l l' _ IH | x y l | l l' l'' _ IH1 _ IH2]; simpl.
  - reflexivity.
  - destruct (negb (Qle_bool v x)); simpl; congruence.
  - destruct (negb (Qle_bool v x)), (negb (Qle_bool v y)); reflexivity.
  - congruence.
Qed.

Lemma count_lt_all_ge (v : Q) (s : list Q) : Forall (Qle v) s -> count_lt v s = O.
Proof.
  unfold count_lt. induction 1 as [| x l Hx _ IH]; simpl; [reflexivity |].
  apply Qle_bool_iff in Hx. now rewrite Hx.
Qed.


Lemma sorted_head_least (a : Q) (s : list Q) : Sorted Qle (a :: s) -> Forall (Qle a) s.
Proof.
  intros Hs. apply Sorted_extends in Hs; [assumption |].
  intros x y z. apply Qle_trans.
Qed.

Lemma sorted_rank (s : list Q) (i : nat) (v : Q) :
  Sorted Qle s -> s !! i = Some v ->
  (count_lt v s <= i)%nat /\ (i < count_le v s)%nat.
Proof.
  intros Hs. revert i. induction Hs as [| a s Hs IH Hhd]; intros i Hi.
  - discriminate.
  - assert (Hall : Forall (Qle a) s)
      by (apply sorted_head_least; now constructor).
    destruct i as [| j]; simpl in Hi.
    + injection Hi as ->.
      unfold count_le; simpl.
      assert (Hvv : Qle_bool v v = true) by (apply Qle_bool_iff; lra).
      rewrite Hvv; simpl. split; [| lia].
      rewrite (count_lt_all_ge v (v :: s)); [lia |].
      constructor; [lra | assumption].
    + destruct (IH j Hi) as [Hlo Hhi].
      assert (Hav : (a <= v)%Q).
      { rewrite Forall_forall in Hall. apply Hall.
        eapply list_elem_of_lookup_2. exact Hi. }
      unfold count_lt, count_le in *; simpl.
      apply Qle_bool_iff in Hav. rewrite Hav; simpl.
      destruct (negb (Qle_bool v a)); simpl; lia.
Qed.


(** ** The summary of the load samples *)

(** The percentile index is the floor of 0.95 (n - 1) and lies in the list. *)
Lemma p95_index (n : nat) :
  (0 < n)%nat ->
  let q := ((95 # 100) * inject_Z (Z.of_nat n - 1))%Q in
  py_int q = Qfloor q /\ 0 <= Qfloor q < Z.of_nat n.
Proof.
  intros Hn q.
  assert (H0 : (0 <= inject_Z (Z.of_nat n - 1))%Q).
  { change 0%Q with (inject_Z 0). rewrite <- Zle_Qle. lia. }
  assert (Hq0 : (0 <= q)%Q) by (unfold q; nra).
  assert (Hq1 : (q <= inject_Z (Z.of_nat n - 1))%Q) by (unfold q; lra).
  split.
  - unfold py_int. apply Qle_bool_iff in Hq0. now rewrite Hq0.
  - apply Qfloor_resp_le in Hq0, Hq1.
    rewrite Qfloor_Z in Hq1. change (Qfloor 0) with 0 in Hq0. lia.
Qed.

Lemma summarize_avg (rs : list LoadSample) :
  avg (summarize_load_results rs) =
  match sample_times rs with
  | [] => None
  | _ :: _ => Some (py_round3 (float_div (py_sum (sample_times rs))
                                         (inject_Z (len (sample_times rs)))))
  end.
Proof. reflexivity. Qed.





Lemma summarize_p95 (rs : list LoadSample) :
  p95 (summarize_load_results rs) =
  match sample_times rs with
  | [] => None
  | _ :: _ =>
      sorted (sample_times rs)
        !! Z.to_nat (Qfloor ((95 # 100) * inject_Z (len (sample_times rs) - 1)))
  end.
Proof.
  unfold summarize_load_results; cbn [p95].
  destruct (sample_times rs) as [| t ts] eqn:Ht; [reflexivity |].
  assert (Hlen : len (sorted (t :: ts)) = len (t :: ts)).
  { unfold len. now rewrite (Permutation_length (sorted_perm (t :: ts))). }
  rewrite Hlen. unfold len.
  destruct (p95_index (length (t :: ts))) as [Hint Hrange]; [simpl; lia |].
  rewrite Hint. unfold getitem.
  destruct (Z.ltb_spec (Qfloor ((95 # 100) * inject_Z (Z.of_nat (length (t :: ts)) - 1))) 0);
    [lia | reflexivity].
Qed.



(** ** The autoscaler *)

Lemma to_float_positive (x : Q) : (0 < to_float x)%Q -> (0 < x)%Q.
Proof.
  intros H. destruct (Qlt_le_dec 0 x) as [Hx | Hx]; [assumption |].
  pose proof (to_float_monotone x 0 Hx) as Hm. rewrite (to_float_zero 0) in Hm; lra.
Qed.

Lemma auto_scale_positive (a target : Q) (ls : LoadSummary) :
  (0 < a)%Q -> (0 < target)%Q ->
  auto_scale (Some a) target ls =
  Some {| servers := Z.max 1 (math_ceil (float_div a target));
          scaled_avg :=
            Some (py_round3 (float_div a (inject_Z (Z.max 1 (math_ceil (float_div a target))))));
          processed := total ls; failed := 0 |}.
Proof.
  intros Ha Ht. unfold auto_scale.
  destruct (Qle_bool a 0) eqn:Hle.
  - apply Qle_bool_iff in Hle. lra.
  - destruct (Qeq_bool target 0) eqn:Heq; [| reflexivity].
    apply Qeq_bool_iff in Heq. lra.
Qed.

Lemma auto_scale_not_positive (a target : Q) (ls : LoadSummary) :
  (a <= 0)%Q ->
  auto_scale (Some a) target ls =
  Some {| servers := 1; scaled_avg := Some a;
          processed := success ls; failed := failures ls |}.
Proof.
  intros Ha. unfold auto_scale. apply Qle_bool_iff in Ha. now rewrite Ha.
Qed.

Lemma auto_scale_servers (avg_time : option Q) (target : Q) (ls : LoadSummary)
    (e : ScaleEstimate) :
  auto_scale avg_time target ls = Some e -> 1 <= servers e.
Proof.
  unfold auto_scale. intros H.
  destruct avg_time as [a |]; [destruct (Qle_bool a 0); [| destruct (Qeq_bool target 0)] |];
    try discriminate H; injection H as <-; cbn [servers]; lia.
Qed.

(** C3.  For a positive target, [auto_scale] returns one server, the average
    as it is, the successes and the failures of the summary when the average is
    undefined or not positive.  Otherwise, when the float quotient avg / target
    is finite, it returns ceil(q) servers and at least one, q being that
    quotient, which is rounded to the nearest double; the scaled average is
    the float quotient of the average by the servers rounded to 3 decimals;
    processed is the summary's total and there is no failure.  The servers
    returned are at least 1 in every case.  For avg 3.0 and target 1.5 there
    are 2 servers, a scaled average of 1.5 and no failure; for no average
    there is 1 server and the summary's failures. *)
Theorem auto_scale_estimate (avg_time : option Q) (target : Q) (ls : LoadSummary) :
  (0 < to_float target)%Q ->
  (avg_time = None \/ (exists a, avg_time = Some a /\ (a <= 0)%Q) ->
     auto_scale avg_time target ls =
     Some {| servers := 1; scaled_avg := avg_time;
             processed := success ls; failed := failures ls |})
  /\ (forall a, avg_time = Some a -> (0 < to_float a)%Q -> quotient_finite a target ->
        exists e, auto_scale avg_time target ls = Some e
                  /\ servers e = Z.max 1 (math_ceil (float_div a target))
                  /\ (exists v, scaled_avg e = Some v
                                /\ v = py_round3 (float_div a (inject_Z (servers e)))
                                /\ rounded_to_3dp v (float_div a (inject_Z (servers e))))
                  /\ processed e = total ls
                  /\ failed e = 0)
  /\ (forall e, auto_scale avg_time target ls = Some e -> 1 <= servers e)
  /\ (exists e, auto_scale (Some 3%Q) (3 # 2) ls = Some e
                /\ servers e = 2
                /\ (exists v, scaled_avg e = Some v /\ (v == 3 # 2)%Q)
                /\ failed e = 0)
  /\ (exists e, auto_scale None (3 # 2) ls = Some e
                /\ servers e = 1 /\ failed e = failures ls).
Proof.
  intros Ht. apply to_float_positive in Ht. repeat apply conj.
  - intros [-> | (a & -> & Ha)]; [reflexivity |].
    now apply auto_scale_not_positive.
  - intros a -> Ha _. apply to_float_positive in Ha.
    rewrite (auto_scale_positive a target ls Ha Ht).
    eexists. split; [reflexivity |]. cbn [servers scaled_avg processed failed].
    repeat split; try reflexivity.
    eexists. repeat split; try reflexivity; apply py_round3_rounded.
  - apply auto_scale_servers.
  - eexists. split; [vm_compute; reflexivity |]. repeat split.
    eexists. split; [reflexivity |]. vm_compute. reflexivity.
  - eexists. split; [reflexivity |]. split; reflexivity.
Qed.

Lemma auto_scale_estimate_witness :
  exists e, auto_scale (Some (21 # 10)) (3 # 2) (summarize_load_results five_samples) = Some e
            /\ servers e = Z.max 1 (math_ceil (float_div (21 # 10) (3 # 2)))
            /\ (exists v, scaled_avg e = Some v
                          /\ v = py_round3 (float_div (21 # 10) (inject_Z (servers e)))
                          /\ rounded_to_3dp v (float_div (21 # 10) (inject_Z (servers e))))
            /\ processed e = total (summarize_load_results five_samples)
            /\ failed e = 0.
Proof.
  apply (auto_scale_estimate (Some (21 # 10)) (3 # 2) (summarize_load_results five_samples));
    vm_compute; reflexivity.
Defined.

(** C3, as first stated, fails.  For avg 2^60 and target 1.5 the float
    quotient is 768614336404564608, below the exact quotient, and that many
    servers are returned where the ceiling of avg / target is
    768614336404564651; for the floats 0.9 and 0.3 the float quotient is 3
    and the quotient of the two doubles is above 3.  For avg 1 and the
    smallest positive float as target the quotient overflows, and
    [math.ceil] raises. *)
Lemma auto_scale_counterexample :
  let ls := summarize_load_results five_samples in
  (exists e, auto_scale (Some (pow2 60)) (3 # 2) ls = Some e
             /\ servers e = 768614336404564608
             /\ Z.max 1 (math_ceil (pow2 60 / (3 # 2))) = 768614336404564651)
  /\ (exists e, auto_scale (Some (to_float (9 # 10))) (to_float (3 # 10)) ls = Some e
                /\ servers e = 3
                /\ Z.max 1 (math_ceil (to_float (9 # 10) / to_float (3 # 10))) = 4)
  /\ ~ quotient_finite 1 (pow2 (-1074)).
Proof.
  repeat split.
  - eexists. split; [vm_compute; reflexivity |]. split; vm_compute; reflexivity.
  - eexists. split; [vm_compute; reflexivity |]. split; vm_compute; reflexivity.
  - vm_compute. discriminate.
Qed.

(** Whatever covers the float quotient covers the exact quotient up to a
    relative 2^-53, the most the rounding can take off. *)
Lemma quotient_cover (a target N : Q) :
  (0 <= to_float a)%Q -> (0 < to_float target)%Q -> (1 <= N)%Q ->
  (float_div a target <= N)%Q ->
  (to_float a * (1 - pow2 (-53)) <= N * to_float target)%Q.
Proof.
  intros HA Ht Hn1 Hnq.
  set (A := to_float a) in *. set (T := to_float target) in *.
  assert (He : (0 < pow2 (-53) < 1)%Q) by (split; reflexivity).
  assert (Hx : (A == A / T * T)%Q) by (field; lra).
  assert (Hcover : (A / T * (1 - pow2 (-53)) <= N)%Q).
  { destruct (Qlt_le_dec 1 (A / T)) as [Hbig | Hsmall].
    - eapply Qle_trans; [| exact Hnq]. unfold float_div. fold A T.
      apply to_float_error. pose proof pow2_min_normal_le_one. lra.
    - assert (H0 : (0 <= A / T)%Q) by (apply Qle_shift_div_l; lra).
      set (x := (A / T)%Q) in *. set (eps := pow2 (-53)) in *. nra. }
  rewrite Hx at 1. set (x := (A / T)%Q) in *. set (eps := pow2 (-53)) in *. nra.
Qed.

Lemma servers_ge_quotient (a target : Q) :
  (1 <= inject_Z (Z.max 1 (math_ceil (float_div a target))))%Q
  /\ (float_div a target <= inject_Z (Z.max 1 (math_ceil (float_div a target))))%Q.
Proof.
  split.
  - change 1%Q with (inject_Z 1). rewrite <- Zle_Qle. lia.
  - eapply Qle_trans; [apply Qle_ceiling |].
    rewrite <- Zle_Qle. unfold math_ceil. lia.
Qed.

Lemma servers_cover (a target : Q) :
  (0 <= to_float a)%Q -> (0 < to_float target)%Q ->
  (to_float a * (1 - pow2 (-53))
   <= inject_Z (Z.max 1 (math_ceil (float_div a target))) * to_float target)%Q.
Proof.
  intros Ha Ht. destruct (servers_ge_quotient a target) as [H1 Hq].
  now apply quotient_cover.
Qed.

(** C10.  For a positive average and a positive target whose float quotient
    is finite, the servers that [auto_scale] returns bring the evenly divided
    average down to the target up to the rounding of that quotient:
    avg / servers <= target / (1 - 2^-53) in exact arithmetic on the values of
    the two floats, and avg / servers <= target when the float quotient is
    not below the exact one. *)
Theorem auto_scale_meets_target (a target : Q) (ls : LoadSummary) :
  (0 < to_float a)%Q -> (0 < to_float target)%Q -> quotient_finite a target ->
  exists e, auto_scale (Some a) target ls = Some e
            /\ (to_float a / inject_Z (servers e) * (1 - pow2 (-53)) <= to_float target)%Q
            /\ ((to_float a / to_float target <= float_div a target)%Q ->
                (to_float a / inject_Z (servers e) <= to_float target)%Q).
Proof.
  intros HA Ht _. pose proof (to_float_positive target Ht) as Ht'.
  pose proof (to_float_positive a HA) as Ha.
  rewrite (auto_scale_positive a target ls Ha Ht').
  eexists. split; [reflexivity |]. cbn [servers].
  pose proof (servers_cover a target (Qlt_le_weak _ _ HA) Ht) as Hc.
  set (n := Z.max 1 (math_ceil (float_div a target))) in *.
  assert (Hn1 : (1 <= inject_Z n)%Q).
  { change 1%Q with (inject_Z 1). rewrite <- Zle_Qle. subst n. lia. }
  split.
  - unfold Qdiv. rewrite <- Qmult_assoc, (Qmult_comm (/ inject_Z n)), Qmult_assoc.
    apply Qle_shift_div_r; [lra |]. now rewrite (Qmult_comm (to_float target)).
  - intros Hq. apply Qle_shift_div_r; [lra |].
    assert (Hnq : (float_div a target <= inject_Z n)%Q).
    { eapply Qle_trans; [apply Qle_ceiling |].
      rewrite <- Zle_Qle. subst n. unfold math_ceil. lia. }
    assert (Hx : (to_float a == to_float a / to_float target * to_float target)%Q)
      by (field; lra).
    rewrite Hx. rewrite (Qmult_comm (to_float target) (inject_Z n)).
    apply Qmult_le_compat_r; lra.
Qed.

Lemma auto_scale_meets_target_witness :
  exists e, auto_scale (Some (7 # 2)) (3 # 2) (summarize_load_results five_samples) = Some e
            /\ (to_float (7 # 2) / inject_Z (servers e) * (1 - pow2 (-53)) <= to_float (3 # 2))%Q
            /\ ((to_float (7 # 2) / to_float (3 # 2) <= float_div (7 # 2) (3 # 2))%Q ->
                (to_float (7 # 2) / inject_Z (servers e) <= to_float (3 # 2))%Q).
Proof.
  apply (auto_scale_meets_target (7 # 2) (3 # 2) (summarize_load_results five_samples));
    vm_compute; reflexivity.
Defined.

(** C10, as first stated, fails: for avg 2^60 and target 1.5 the float
    quotient is rounded down to 768614336404564608, that many servers are
    returned, and avg / servers is above 1.5; for the floats 0.9 and 0.3 the
    servers are 3 and 0.9 / 3 is above 0.3 in exact arithmetic. *)
Lemma auto_scale_target_counterexample :
  let ls := summarize_load_results five_samples in
  (exists e, auto_scale (Some (pow2 60)) (3 # 2) ls = Some e
             /\ servers e = 768614336404564608
             /\ ~ (pow2 60 / inject_Z (servers e) <= 3 # 2)%Q)
  /\ (exists e, auto_scale (Some (to_float (9 # 10))) (to_float (3 # 10)) ls = Some e
                /\ servers e = 3
                /\ ~ (to_float (9 # 10) / inject_Z (servers e) <= to_float (3 # 10))%Q).
Proof.
  split.
  - eexists. split; [vm_compute; reflexivity |]. split; [vm_compute; reflexivity |].
    vm_compute. intros H. now apply H.
  - eexists. split; [vm_compute; reflexivity |]. split; [vm_compute; reflexivity |].
    vm_compute. intros H. now apply H.
Qed.

(** ** The page auditor *)

Ltac run_io :=
  unfold mbind, io_bind, mret, io_ret, clock, http_get in *; cbn beta iota in *.

Section Auditor.
Context {E : Env}.

Lemma fetch_page_fetched (u : string) (w : World) (r : Response) :
  fetched u w r ->
  exists t w', fetch_page u w = ((Some r, Some t, None), w').
Proof.
  intros [w' Hget]. unfold fetch_page. run_io.
  destruct (time_time w) as [t0 w0]. cbn [snd] in Hget. rewrite Hget.
  destruct (time_time w') as [t1 w1]. eauto.
Qed.

Lemma fetch_page_fails (u : string) (w : World) (e : string) :
  fetch_fails u w e ->
  exists w', fetch_page u w = ((None, None, Some e), w').
Proof.
  intros [w' Hget]. unfold fetch_page. run_io.
  destruct (time_time w) as [t0 w0]. cbn [snd] in Hget. rewrite Hget. eauto.
Qed.

Lemma analyze_page_fetched (u : string) (w : World) (r : Response) :
  fetched u w r ->
  exists t w',
    analyze_page u w = (audit_result u r (Some t) (BeautifulSoup (text r)), w').
Proof.
  intros Hf. destruct (fetch_page_fetched u w r Hf) as (t & w' & Hfp).
  exists t, w'. unfold analyze_page. run_io. now rewrite Hfp.
Qed.

Lemma analyze_page_fails (u : string) (w : World) (e : string) :
  fetch_fails u w e ->
  exists w', analyze_page u w = (error_result u (Some e), w').
Proof.
  intros Hf. destruct (fetch_page_fails u w e Hf) as (w' & Hfp).
  exists w'. unfold analyze_page. run_io. now rewrite Hfp.
Qed.

(** The record is always for the URL asked. *)
Lemma analyze_page_url (u : string) (w : World) : url (fst (analyze_page u w)) = u.
Proof.
  unfold analyze_page. run_io.
  destruct (fetch_page u w) as [[[r elapsed] err] w'].
  destruct r; [destruct (truthy err) |]; reflexivity.
Qed.

End Auditor.

Lemma security_of_audit (u : string) (r : Response) (t : option Q) (soup : Soup) :
  security (audit_result u r t soup) = security_checks u r.
Proof. reflexivity. Qed.


Lemma https_finding_not_header (hs : list (string * string)) :
  https_finding ∉ missing_headers hs.
Proof.
  unfold missing_headers. intros Hin.
  apply list_elem_of_fmap in Hin as (h & Heq & Hh).
  apply list_elem_of_filter in Hh as [_ Hh].
  unfold SECURITY_HEADERS in Hh.
  repeat (apply elem_of_cons in Hh as [-> | Hh]; [discriminate Heq |]).
  inversion Hh.
Qed.

Lemma https_finding_iff (u : string) (r : Response) :
  https_finding ∈ security_checks u r <-> startswith "http://" u = true.
Proof.
  unfold security_checks. rewrite elem_of_app. split.
  - intros [Hin | Hin].
    + destruct (startswith "http://" u); [reflexivity | inversion Hin].
    + now apply https_finding_not_header in Hin.
  - intros ->. left. apply list_elem_of_here.
Qed.

Lemma startswith_http (u : string) :
  startswith "http://" u = true -> exists rest, u = "http://" ++ rest.
Proof.
  unfold startswith. intros H.
  do 7 (destruct u as [| ? u]; [discriminate H |];
        cbn [String.prefix] in H;
        match type of H with
        | (if ?d then _ else _) = true => destruct d as [<- |]; [| discriminate H]
        end).
  now exists u.
Qed.

Lemma url_scheme_http (rest : string) : url_scheme ("http://" ++ rest) = "http".
Proof. reflexivity. Qed.

(** What the code tests: for every successfully fetched page, the security
    list contains the not-using-HTTPS finding if and only if the URL string
    starts with the literal prefix http:// (lower case); a page with the
    finding has the scheme http, so never HTTPS. *)
Lemma https_finding_prefix {E : Env} (u : string) (w : World) (r : Response) :
  fetched u w r ->
  (https_finding ∈ security (fst (analyze_page u w)) <-> startswith "http://" u = true)
  /\ (https_finding ∈ security (fst (analyze_page u w)) -> url_scheme u = "http").
Proof.
  intros Hf. destruct (analyze_page_fetched u w r Hf) as (t & w' & ->).
  cbn [fst]. rewrite security_of_audit, https_finding_iff.
  split; [reflexivity |].
  intros Hp. destruct (startswith_http u Hp) as [rest ->]. apply url_scheme_http.
Qed.

(** C5.  The code does not do what the claim says: a page fetched under the
    URL HTTP://a.test/ has the scheme http, which is not HTTPS, and its
    record has no not-using-HTTPS finding, because the test is on the
    lower-case prefix of the URL as written. *)
Theorem https_finding_missed :
  exists r, @fetched Demo.env "HTTP://a.test/" 0 r
            /\ url_scheme "HTTP://a.test/" = "http"
            /\ url_scheme "HTTP://a.test/" <> "https"
            /\ startswith "http://" "HTTP://a.test/" = false
            /\ https_finding ∉ security (fst (@analyze_page Demo.env "HTTP://a.test/" 0)).
Proof.
  eexists. split; [exists 1; reflexivity |].
  split; [reflexivity |]. split; [discriminate |]. split; [reflexivity |].
  vm_compute. intros H. inversion H.
Qed.







(** C9. When the fetch of a URL fails, the record of [analyze_page] has the
    status Error, an error string, no load time and three empty finding
    lists. *)
Theorem analyze_page_fetch_error {E : Env} (u : string) (w : World) (e : string) :
  fetch_fails u w e ->
  let res := fst (analyze_page u w) in
  status res = Some StatusError
  /\ (exists msg, error res = Some msg
                  /\ msg = if truthy (Some e) then e else "Fetch error")
  /\ load_time res = None
  /\ security res = [] /\ seo res = [] /\ accessibility res = [].
Proof.
  intros Hf res. subst res.
  destruct (analyze_page_fails u w e Hf) as (w' & ->). cbn [fst].
  unfold error_result; cbn.
  repeat split.
  destruct e; eexists; split; reflexivity.
Qed.

Lemma analyze_page_fetch_error_witness :
  status (fst (@analyze_page Demo.env "http://down.test/" 0)) = Some StatusError.
Proof.
  apply (@analyze_page_fetch_error Demo.env "http://down.test/" 0 "connection refused").
  exists 1. reflexivity.
Defined.

(** ** The crawler *)

Lemma split_head_no_char (c : ascii) (s : string) :
  contains_char c (split_head c s) = false.
Proof.
  induction s as [| a r IH]; simpl; [reflexivity |].
  destruct (Ascii.eqb a c) eqn:Hac; simpl; [reflexivity |].
  now rewrite Hac, IH.
Qed.

Section Crawler.
Context {E : Env}.
Variable start_url : string.

Lemma enqueue_links_elem (u : string) (seen : gset string) (hrefs q : list string)
    (x : string) :
  x ∈ enqueue_links start_url u seen hrefs q -> x ∈ q \/ followed start_url seen x.
Proof.
  revert q. induction hrefs as [| href rest IH]; intros q Hx; simpl in Hx.
  - now left.
  - destruct (urljoin u href) as [joined |]; [| now left].
    destruct (netloc (split_head "#" joined)) as [n |] eqn:Hn; [| now left].
    destruct (netloc start_url) as [n0 |] eqn:Hn0; [| now left].
    destruct (String.eqb n n0) eqn:Heq; [| now apply IH].
    apply String.eqb_eq in Heq. subst n0.
    destruct (bool_decide (split_head "#" joined ∉ seen)
              && bool_decide (split_head "#" joined ∉ q)) eqn:Hb; [| now apply IH].
    apply andb_true_iff in Hb as [Hseen _]. apply bool_decide_eq_true in Hseen.
    apply IH in Hx as [Hx | Hx]; [| now right].
    apply elem_of_app in Hx as [Hx | Hx]; [now left |].
    apply list_elem_of_singleton in Hx. subst x. right.
    split; [apply split_head_no_char |]. split; [assumption |]. now exists n.
Qed.


Lemma enqueue_links_NoDup (u : string) (seen : gset string) (hrefs q : list string) :
  NoDup q -> NoDup (enqueue_links start_url u seen hrefs q).
Proof.
  revert q. induction hrefs as [| href rest IH]; intros q Hq; simpl; [assumption |].
  destruct (urljoin u href) as [joined |]; [| assumption].
  destruct (netloc (split_head "#" joined)) as [n |]; [| assumption].
  destruct (netloc start_url) as [n0 |]; [| assumption].
  destruct (String.eqb n n0); [| now apply IH].
  destruct (bool_decide (split_head "#" joined ∉ seen)
            && bool_decide (split_head "#" joined ∉ q)) eqn:Hb; [| now apply IH].
  apply andb_true_iff in Hb as [_ Hfresh]. apply bool_decide_eq_true in Hfresh.
  apply IH. apply NoDup_app. split; [assumption |]. split.
  - intros x Hx Hx'. apply list_elem_of_singleton in Hx'. now subst x.
  - apply NoDup_singleton.
Qed.

Lemma crawl_body_iteration (max_pages : Z) (st st' : CrawlState) (w w' : World) :
  crawl_continues max_pages st = true ->
  crawl_body start_url st w = (st', w') ->
  iteration start_url st st'.
Proof.
  unfold crawl_continues, crawl_body. intros Hc Hb.
  destruct (queue st) as [| u q] eqn:Hq; [discriminate Hc |].
  destruct (bool_decide (u ∈ visited st)) eqn:Hv.
  - apply bool_decide_eq_true in Hv. run_io. injection Hb as <- <-.
    now apply (iter_skip start_url st _ u q).
  - apply bool_decide_eq_false in Hv. run_io.
    pose proof (analyze_page_url u w) as Hurl.
    destruct (analyze_page u w) as [res w1]. cbn [fst] in Hurl.
    destruct (requests_get u crawl_headers w1) as [[e | resp] w2].
    + injection Hb as <- <-. now apply (iter_visit start_url st _ u q res []).
    + destruct (negb (status_code resp =? 200)%Z); injection Hb as <- <-.
      * now apply (iter_visit start_url st _ u q res []).
      * now apply (iter_visit start_url st _ u q res (soup_hrefs (BeautifulSoup (text resp)))).
Qed.

End Crawler.

Section CrawlInvariant.
Context {E : Env}.
Variables (start_url : string) (max_pages : Z).

Lemma crawl_inv_init : crawl_inv start_url (crawl_init start_url).
Proof.
  split; cbn.
  - intros u. split; intros H; [inversion H | set_solver].
  - constructor.
  - reflexivity.
  - apply NoDup_singleton.
  - intros u _. set_solver.
  - intros u [Hu | Hu]; [| set_solver].
    apply list_elem_of_singleton in Hu. now left.
Qed.

Lemma followed_weaken (seen : gset string) (x : string) :
  followed start_url seen x -> followed start_url ∅ x.
Proof. intros (Hf & _ & Hn). split; [assumption |]. split; [set_solver | assumption]. Qed.

Lemma crawl_inv_iteration (st st' : CrawlState) :
  crawl_inv start_url st -> iteration start_url st st' -> crawl_inv start_url st'.
Proof.
  intros [Haud Honce Hcount Hqonce Hqfresh Hfol] [u q Hq Hu -> | u q res hrefs Hq Hu Hres ->].
  - rewrite Hq in *. apply NoDup_cons in Hqonce as [_ Hqonce].
    split; cbn; try assumption.
    + intros x Hx. apply Hqfresh. now right.
    + intros x [Hx | Hx]; apply Hfol; [left; now right | now right].
  - rewrite Hq in *. apply NoDup_cons in Hqonce as [Huq Hqonce].
    split; cbn.
    + intros x. rewrite map_app, elem_of_app, Haud. cbn. rewrite Hres.
      rewrite elem_of_union, elem_of_singleton, list_elem_of_singleton. tauto.
    + rewrite map_app. cbn. rewrite Hres. apply NoDup_app.
      split; [assumption |]. split; [| apply NoDup_singleton].
      intros x Hx Hx'. apply list_elem_of_singleton in Hx'. subst x.
      now apply Haud in Hx.
    + rewrite length_app, size_union by (now apply disjoint_singleton_l).
      rewrite size_singleton, Hcount. cbn. lia.
    + now apply enqueue_links_NoDup.
    + intros x Hx. apply enqueue_links_elem in Hx as [Hx | (_ & Hx & _)]; [| assumption].
      assert (x <> u) by (intros ->; contradiction).
      assert (x ∉ visited st) by (apply Hqfresh; now right).
      rewrite elem_of_union, elem_of_singleton. tauto.
    + intros x [Hx | Hx].
      * apply enqueue_links_elem in Hx as [Hx | Hx].
        -- apply Hfol. left. now right.
        -- right. now apply followed_weaken in Hx.
      * apply elem_of_union in Hx as [Hx | Hx].
        -- apply elem_of_singleton in Hx. subst x. apply Hfol. left. now left.
        -- apply Hfol. now right.
Qed.

(** Every state of the traversal satisfies the invariant and the bound. *)
Lemma crawl_reaches_inv (st : CrawlState) (w : World) :
  crawl_reaches start_url max_pages st w ->
  crawl_inv start_url st
  /\ (0 <= max_pages -> Z.of_nat (size (visited st)) <= max_pages).
Proof.
  induction 1 as [w | st w st' w' Hreach [Hinv Hbound] Hcont Hbody].
  - split; [apply crawl_inv_init |]. cbn. rewrite size_empty. lia.
  - pose proof (crawl_body_iteration start_url max_pages st st' w w' Hcont Hbody) as Hit.
    split; [now apply (crawl_inv_iteration st st') |].
    intros Hmax. unfold crawl_continues in Hcont.
    destruct (queue st) as [| u0 q0]; [discriminate Hcont |].
    apply Z.ltb_lt in Hcont.
    destruct Hit as [u q Hq Hu -> | u q res hrefs Hq Hu Hres ->]; cbn.
    + lia.
    + rewrite size_union by set_solver. rewrite size_singleton. lia.
Qed.

(** Under the invariant an iteration visits a page. *)
Lemma iteration_visits (st st' : CrawlState) :
  crawl_inv start_url st -> iteration start_url st st' ->
  size (visited st') = S (size (visited st)).
Proof.
  intros Hinv [u q Hq Hu -> | u q res hrefs Hq Hu Hres ->]; cbn.
  - exfalso. apply (inv_queue_fresh _ _ Hinv u); [| assumption].
    rewrite Hq. now left.
  - rewrite size_union by set_solver. now rewrite size_singleton.
Qed.

(** The loop ends within [max_pages] iterations, in a state of the
    traversal in which the loop test fails. *)
Lemma crawl_loop_terminates (fuel : nat) (st : CrawlState) (w : World) :
  crawl_reaches start_url max_pages st w ->
  (Z.to_nat (max_pages - Z.of_nat (size (visited st))) < fuel)%nat ->
  exists st' w', crawl_loop fuel start_url max_pages st w = (Some st', w').
Proof.
  revert st w. induction fuel as [| fuel IH]; intros st w Hreach Hfuel; [lia |].
  cbn [crawl_loop]. destruct (crawl_continues max_pages st) eqn:Hcont.
  - run_io. destruct (crawl_body start_url st w) as [st1 w1] eqn:Hbody.
    pose proof (reaches_step _ _ _ _ _ _ Hreach Hcont Hbody) as Hreach1.
    apply IH; [assumption |].
    pose proof (crawl_body_iteration start_url max_pages st st1 w w1 Hcont Hbody) as Hit.
    destruct (crawl_reaches_inv st w Hreach) as [Hinv _].
    rewrite (iteration_visits st st1 Hinv Hit).
    unfold crawl_continues in Hcont.
    destruct (queue st); [discriminate Hcont |].
    apply Z.ltb_lt in Hcont. lia.
  - run_io. eauto.
Qed.

Lemma crawl_loop_reaches (fuel : nat) (st st' : CrawlState) (w w' : World) :
  crawl_reaches start_url max_pages st w ->
  crawl_loop fuel start_url max_pages st w = (Some st', w') ->
  crawl_reaches start_url max_pages st' w'
  /\ crawl_continues max_pages st' = false.
Proof.
  revert st w. induction fuel as [| fuel IH]; intros st w Hreach Hloop.
  - discriminate Hloop.
  - cbn [crawl_loop] in Hloop. destruct (crawl_continues max_pages st) eqn:Hcont.
    + run_io. destruct (crawl_body start_url st w) as [st1 w1] eqn:Hbody.
      apply (IH st1 w1); [| assumption].
      now apply (reaches_step _ _ st w st1 w1).
    + run_io. injection Hloop as <- <-. now split.
Qed.

Lemma crawl_site_results (fuel : nat) (rs : list PageResult) (w w' : World) :
  crawl_site fuel start_url max_pages w = (Some rs, w') ->
  exists st, crawl_reaches start_url max_pages st w'
             /\ crawl_continues max_pages st = false
             /\ rs = results st.
Proof.
  unfold crawl_site. run_io.
  destruct (crawl_loop fuel start_url max_pages (crawl_init start_url) w)
    as [[st |] w1] eqn:Hloop; cbn; intros Heq; [| discriminate Heq].
  injection Heq as <- <-.
  destruct (crawl_loop_reaches fuel _ st w w1 (reaches_init _ _ w) Hloop) as [Hr Hc].
  now exists st.
Qed.

Lemma crawl_site_terminates (w : World) :
  exists rs w', crawl_site (S (Z.to_nat max_pages)) start_url max_pages w = (Some rs, w').
Proof.
  destruct (crawl_loop_terminates (S (Z.to_nat max_pages)) (crawl_init start_url) w)
    as (st & w' & Hloop).
  - constructor.
  - cbn. rewrite size_empty. lia.
  - exists (results st), w'. unfold crawl_site. run_io. now rewrite Hloop.
Qed.

End CrawlInvariant.

(** C1. For a page limit of at least 1, [crawl_site] returns (with
    [max_pages] + 1 units of fuel), its result has at most [max_pages] records
    and no URL in two of them; at every step of the traversal the visited set
    has at most [max_pages] members and the audited URLs are the visited
    ones, each audited once. *)
Theorem crawl_site_bounded {E : Env} (start_url : string) (max_pages : Z) (w : World) :
  1 <= max_pages ->
  (exists rs w', crawl_site (S (Z.to_nat max_pages)) start_url max_pages w = (Some rs, w'))
  /\ (forall fuel rs w',
        crawl_site fuel start_url max_pages w = (Some rs, w') ->
        Z.of_nat (length rs) <= max_pages /\ NoDup (map url rs))
  /\ (forall st w',
        crawl_reaches start_url max_pages st w' ->
        Z.of_nat (size (visited st)) <= max_pages
        /\ length (results st) = size (visited st)
        /\ NoDup (map url (results st))
        /\ (forall u, u ∈ map url (results st) <-> u ∈ visited st)).
Proof.
  intros Hmax. split; [apply crawl_site_terminates |].
  assert (Hstep : forall st w',
            crawl_reaches start_url max_pages st w' ->
            Z.of_nat (size (visited st)) <= max_pages
            /\ length (results st) = size (visited st)
            /\ NoDup (map url (results st))
            /\ (forall u, u ∈ map url (results st) <-> u ∈ visited st)).
  { intros st w' Hreach.
    destruct (crawl_reaches_inv start_url max_pages st w' Hreach) as [Hinv Hbound].
    split; [apply Hbound; lia |].
    split; [apply (inv_count _ _ Hinv) |].
    split; [apply (inv_once _ _ Hinv) | apply (inv_audited _ _ Hinv)]. }
  split; [| exact Hstep].
  intros fuel rs w' Hrun.
  destruct (crawl_site_results start_url max_pages fuel rs w w' Hrun) as (st & Hreach & _ & ->).
  destruct (Hstep st w' Hreach) as (Hb & Hc & Hn & _).
  split; [lia | assumption].
Qed.

Lemma crawl_site_bounded_witness :
  exists rs w', @crawl_site Demo.env 6 "http://a.test/" 5 0 = (Some rs, w').
Proof.
  apply (@crawl_site_bounded Demo.env "http://a.test/" 5 0). lia.
Defined.

(** What the code keeps: at every step of every crawl, every member of the
    visited set other than the start URL is free of a fragment; when the start
    URL has none, no member has one. *)
Lemma visited_fragment_free {E : Env} (start_url : string) (max_pages : Z)
    (st : CrawlState) (w : World) :
  crawl_reaches start_url max_pages st w ->
  (forall u, u ∈ visited st -> u <> start_url -> has_fragment u = false)
  /\ (has_fragment start_url = false -> forall u, u ∈ visited st -> has_fragment u = false).
Proof.
  intros Hreach.
  destruct (crawl_reaches_inv start_url max_pages st w Hreach) as [Hinv _].
  split.
  - intros u Hu Hne.
    destruct (inv_followed _ _ Hinv u (or_intror Hu)) as [-> | (Hf & _)];
      [contradiction | assumption].
  - intros Hstart u Hu.
    destruct (inv_followed _ _ Hinv u (or_intror Hu)) as [-> | (Hf & _)]; assumption.
Qed.

Lemma demo_reaches_step2 :
  @crawl_reaches Demo.env "http://a.test/" 5 (fst Demo.step2) (snd Demo.step2).
Proof.
  apply (@reaches_step Demo.env _ _ (fst Demo.step1) (snd Demo.step1)).
  - apply (@reaches_step Demo.env _ _ (crawl_init "http://a.test/") 0).
    + apply reaches_init.
    + reflexivity.
    + apply surjective_pairing.
  - vm_compute. reflexivity.
  - apply surjective_pairing.
Qed.

(** C7.  The code does not do what the claim says: the fragment is taken off
    the links found on a page, and the start URL is queued as it was given.
    In the crawl started at http://a.test/#top the first iteration puts that
    URL, fragment included, into the visited set and audits it. *)
Theorem start_fragment_visited :
  exists st w, @crawl_reaches Demo.env "http://a.test/#top" 5 st w
               /\ "http://a.test/#top" ∈ visited st
               /\ has_fragment "http://a.test/#top" = true
               /\ map url (results st) = ["http://a.test/#top"]
               /\ option_map (map url) (fst (@crawl_site Demo.env 6 "http://a.test/#top" 5 0))
                  = Some ["http://a.test/#top"; "http://a.test/x"; "http://a.test/slow";
                          "http://a.test/"].
Proof.
  exists (fst (@crawl_body Demo.env "http://a.test/#top" (crawl_init "http://a.test/#top") 0)).
  exists (snd (@crawl_body Demo.env "http://a.test/#top" (crawl_init "http://a.test/#top") 0)).
  split.
  - apply (@reaches_step Demo.env _ _ (crawl_init "http://a.test/#top") 0).
    + apply reaches_init.
    + reflexivity.
    + apply surjective_pairing.
  - split; [| split; [reflexivity | split; vm_compute; reflexivity]].
    apply (bool_decide_unpack _). vm_compute. exact I.
Qed.

(** C8. At every step of every crawl, every URL on the frontier and every
    URL visited or audited has the host name of the start URL; those other
    than the start URL have its network location. *)
Theorem crawl_same_host {E : Env} (start_url : string) (max_pages : Z)
    (st : CrawlState) (w : World) :
  crawl_reaches start_url max_pages st w ->
  forall u, u ∈ queue st \/ u ∈ visited st \/ u ∈ map url (results st) ->
    hostname u = hostname start_url
    /\ (u <> start_url ->
        exists n, netloc u = Some n /\ netloc start_url = Some n).
Proof.
  intros Hreach u Hu.
  destruct (crawl_reaches_inv start_url max_pages st w Hreach) as [Hinv _].
  assert (Hmet : u ∈ queue st \/ u ∈ visited st).
  { destruct Hu as [Hu | [Hu | Hu]]; [now left | now right |].
    right. now apply (inv_audited _ _ Hinv). }
  destruct (inv_followed _ _ Hinv u Hmet) as [-> | (_ & _ & n & Hn & Hn0)].
  - split; [reflexivity | intros Hne; contradiction].
  - split; [| intros _; now exists n].
    unfold hostname. now rewrite Hn, Hn0.
Qed.

Lemma crawl_same_host_witness :
  @hostname Demo.env "http://a.test/slow" = @hostname Demo.env "http://a.test/".
Proof.
  apply (@crawl_same_host Demo.env "http://a.test/" 5
           (fst Demo.step2) (snd Demo.step2) demo_reaches_step2).
  left. apply (bool_decide_unpack _). vm_compute. exact I.
Defined.

(** ** The load generator *)

Lemma len_concat {A} (xss : list (list A)) : len (concat xss) = sum_sizes (map len xss).
Proof.
  induction xss as [| xs xss IH]; cbn; [reflexivity |].
  unfold len in *. rewrite length_app. unfold sum_sizes in IH. lia.
Qed.

(** The waves planned from [remaining] on follow the rule of the minimum. *)
Lemma wave_sizes_rule (fuel : nat) (remaining : Z) :
  wave_rule remaining (wave_sizes fuel remaining).
Proof.
  revert remaining. induction fuel as [| fuel IH]; intros remaining i k Hi.
  - discriminate Hi.
  - cbn [wave_sizes] in *. destruct (0 <? remaining)%Z; [| discriminate Hi].
    destruct i as [| i]; cbn in Hi |- *.
    + injection Hi as <-. lia.
    + apply IH in Hi. rewrite Hi. f_equal. unfold sum_sizes. lia.
Qed.

Section LoadGenerator.
Context {E : Env}.
Variable u : string.

Lemma run_wave_length (n : nat) (w : World) : length (fst (run_wave n u w)) = n.
Proof.
  revert w. induction n as [| n IH]; intros w; [reflexivity |].
  cbn [run_wave]. run_io.
  destruct (fetch_once u w) as [s w1].
  specialize (IH w1). destruct (run_wave n u w1) as [ss w2].
  cbn in *. now rewrite IH.
Qed.

(** When the loop ends it has run the planned waves, and these add up to
    the requests that remained. *)
Lemma load_loop_waves (fuel : nat) (remaining : Z) (waves res : list (list LoadSample))
    (w w' : World) :
  load_loop fuel u remaining waves w = (Some res, w') ->
  exists ws, res = (waves ++ ws)%list
             /\ map len ws = wave_sizes fuel remaining
             /\ sum_sizes (wave_sizes fuel remaining) = Z.max 0 remaining.
Proof.
  revert remaining waves w. induction fuel as [| fuel IH]; intros remaining waves w Hloop.
  - discriminate Hloop.
  - cbn [load_loop wave_sizes] in *. destruct (Z.ltb_spec 0 remaining) as [Hpos | Hle].
    + run_io. pose proof (run_wave_length (Z.to_nat (Z.min batch_size remaining)) w) as Hlen.
      destruct (run_wave (Z.to_nat (Z.min batch_size remaining)) u w) as [ss w1].
      cbn [fst] in Hlen.
      apply IH in Hloop as (ws & -> & Hsizes & Hsum).
      exists (ss :: ws). split; [now rewrite <- app_assoc |].
      split.
      * cbn [map]. rewrite Hsizes. f_equal. unfold len, batch_size in *. lia.
      * cbn. unfold sum_sizes, batch_size in *. lia.
    + run_io. injection Hloop as <- <-. exists [].
      split; [now rewrite app_nil_r |]. split; [reflexivity |]. cbn. lia.
Qed.

Lemma load_loop_terminates (fuel : nat) (remaining : Z) (waves : list (list LoadSample))
    (w : World) :
  (Z.to_nat remaining < fuel)%nat ->
  exists res w', load_loop fuel u remaining waves w = (Some res, w').
Proof.
  revert remaining waves w. induction fuel as [| fuel IH]; intros remaining waves w Hfuel;
    [lia |].
  cbn [load_loop]. destruct (Z.ltb_spec 0 remaining) as [Hpos | Hle].
  - run_io. destruct (run_wave (Z.to_nat (Z.min batch_size remaining)) u w) as [ss w1].
    apply IH. unfold batch_size. lia.
  - run_io. eauto.
Qed.

Lemma run_load_test_waves (fuel : nat) (users : Z) (w : World) :
  run_load_test fuel u users w =
  (option_map (@concat LoadSample) (fst (load_waves fuel u users w)),
   snd (load_waves fuel u users w)).
Proof. unfold run_load_test. run_io. now destruct (load_waves fuel u users w). Qed.

End LoadGenerator.

(** C4. For at least one user, [run_load_test] returns (with [users] + 1
    units of fuel) and its result has exactly [users] samples; they come in
    successive waves, each of min(300, remaining) samples.  For 700 users
    there are exactly 3 waves, of 300, 300 and 100 samples, 700 in all. *)
Theorem run_load_test_waves_exact {E : Env} (u : string) (users : Z) (w : World) :
  1 <= users ->
  (exists rs w', run_load_test (S (Z.to_nat users)) u users w = (Some rs, w'))
  /\ (forall fuel rs w',
        run_load_test fuel u users w = (Some rs, w') ->
        len rs = users
        /\ exists ws, fst (load_waves fuel u users w) = Some ws
                      /\ rs = concat ws
                      /\ wave_rule users (map len ws))
  /\ (exists rs w', run_load_test 701 u 700 w = (Some rs, w'))
  /\ (forall fuel rs w',
        run_load_test fuel u 700 w = (Some rs, w') ->
        len rs = 700
        /\ exists ws, fst (load_waves fuel u 700 w) = Some ws
                      /\ rs = concat ws
                      /\ map len ws = [300; 300; 100]).
Proof.
  intros Husers.
  assert (Hgen : forall n fuel rs w',
            run_load_test fuel u n w = (Some rs, w') ->
            exists ws, fst (load_waves fuel u n w) = Some ws
                       /\ rs = concat ws
                       /\ map len ws = wave_sizes fuel n
                       /\ sum_sizes (wave_sizes fuel n) = Z.max 0 n).
  { intros n fuel rs w' Hrun. rewrite run_load_test_waves in Hrun.
    destruct (load_waves fuel u n w) as [[ws |] w1] eqn:Hw; [| discriminate Hrun].
    cbn in Hrun. injection Hrun as <- <-.
    unfold load_waves in Hw. apply load_loop_waves in Hw as (ws' & -> & Hs & Hsum).
    exists ws'. cbn [app fst]. repeat split; assumption. }
  assert (Hend : forall n, exists rs w',
            run_load_test (S (Z.to_nat n)) u n w = (Some rs, w')).
  { intros n.
    destruct (load_loop_terminates u (S (Z.to_nat n)) n [] w) as (ws & w' & Hw); [lia |].
    exists (concat ws), w'. rewrite run_load_test_waves. unfold load_waves. now rewrite Hw. }
  repeat apply conj.
  - apply Hend.
  - intros fuel rs w' Hrun.
    destruct (Hgen users fuel rs w' Hrun) as (ws & Hw & -> & Hs & Hsum).
    split.
    + rewrite len_concat, Hs, Hsum. lia.
    + exists ws. repeat split; [assumption |]. rewrite Hs. apply wave_sizes_rule.
  - apply (Hend 700).
  - intros fuel rs w' Hrun.
    destruct (Hgen 700 fuel rs w' Hrun) as (ws & Hw & -> & Hs & Hsum).
    split.
    + rewrite len_concat, Hs, Hsum. reflexivity.
    + exists ws. repeat split; [assumption |]. rewrite Hs.
      do 3 (destruct fuel as [| fuel]; [discriminate Hsum |]).
      destruct fuel; reflexivity.
Qed.

Lemma run_load_test_waves_exact_witness :
  exists rs w', @run_load_test Demo.env 8 "http://a.test/" 7 0 = (Some rs, w').
Proof.
  apply (@run_load_test_waves_exact Demo.env "http://a.test/" 7 0). lia.
Defined.

(** ** More on the summary *)

Lemma float_add_monotone (x x' y y' : Q) :
  (x <= x')%Q -> (y <= y')%Q -> (float_add x y <= float_add x' y')%Q.
Proof.
  intros Hx Hy. unfold float_add. apply to_float_monotone.
  apply to_float_monotone in Hx, Hy. lra.
Qed.

Lemma py_sum_monotone (xs xs' : list Q) (acc acc' : Q) :
  Forall2 Qle xs xs' -> (acc <= acc')%Q ->
  (foldl float_add acc xs <= foldl float_add acc' xs')%Q.
Proof.
  intros Hall. revert acc acc'.
  induction Hall as [| x x' xs xs' Hx _ IH]; intros acc acc' Hacc; [exact Hacc |].
  cbn [foldl]. apply IH. now apply float_add_monotone.
Qed.

Lemma to_float_ge_one (n : Z) : 1 <= n -> (1 <= to_float (inject_Z n))%Q.
Proof.
  intros Hn. rewrite <- to_float_one. apply to_float_monotone.
  change 1%Q with (inject_Z 1). now rewrite <- Zle_Qle.
Qed.

(** A float quotient by a count grows with the dividend. *)
Lemma float_div_monotone (x x' : Q) (n : Z) :
  1 <= n -> (x <= x')%Q -> (float_div x (inject_Z n) <= float_div x' (inject_Z n))%Q.
Proof.
  intros Hn Hx. unfold float_div. apply to_float_monotone.
  pose proof (to_float_ge_one n Hn) as H1. apply to_float_monotone in Hx.
  unfold Qdiv. apply Qmult_le_compat_r; [exact Hx |].
  apply Qlt_le_weak, Qinv_lt_0_compat. lra.
Qed.

(** A float quotient of a dividend that is not negative shrinks as the count
    grows. *)
Lemma float_div_antitone (x : Q) (n m : Z) :
  (0 <= x)%Q -> 1 <= n <= m -> (float_div x (inject_Z m) <= float_div x (inject_Z n))%Q.
Proof.
  intros Hx [Hn Hnm]. unfold float_div. apply to_float_monotone.
  pose proof (to_float_ge_one n Hn) as H1.
  pose proof (to_float_nonneg x Hx) as H0.
  assert (Hle : (to_float (inject_Z n) <= to_float (inject_Z m))%Q)
    by (apply to_float_monotone; now rewrite <- Zle_Qle).
  set (X := to_float x) in *. set (N := to_float (inject_Z n)) in *.
  set (M := to_float (inject_Z m)) in *.
  apply Qle_shift_div_l; [lra |].
  assert (Hq : (0 <= X / M)%Q) by (apply Qle_shift_div_l; lra).
  assert (Hxm : (X / M * M == X)%Q) by (field; lra).
  set (y := (X / M)%Q) in *. nra.
Qed.

(** X1. The average of a summary is monotone in the sample times, rounding
    included: when every time of one run is at most the time at the same
    place of another run, its average is at most the other average.  In
    particular the average of times that are not negative is not negative. *)
Theorem avg_monotone (rs rs' : list LoadSample) :
  Forall2 Qle (sample_times rs) (sample_times rs') ->
  (forall a a', avg (summarize_load_results rs) = Some a ->
                avg (summarize_load_results rs') = Some a' -> (a <= a')%Q)
  /\ ((forall t, t ∈ sample_times rs -> (0 <= t)%Q) ->
      forall a, avg (summarize_load_results rs) = Some a -> (0 <= a)%Q).
Proof.
  intros Hall. split.
  - intros a a' Ha Ha'. rewrite summarize_avg in Ha, Ha'.
    pose proof (Forall2_length _ _ _ Hall) as Hlen.
    destruct (sample_times rs) as [| t ts] eqn:Ht; [discriminate Ha |].
    destruct (sample_times rs') as [| t' ts'] eqn:Ht'; [discriminate Ha' |].
    injection Ha as <-. injection Ha' as <-.
    unfold len. rewrite <- Hlen.
    apply py_round3_monotone, float_div_monotone; [cbn; lia |].
    apply py_sum_monotone; [exact Hall | lra].
  - intros Hpos a Ha. rewrite summarize_avg in Ha.
    destruct (sample_times rs) as [| t ts] eqn:Ht; [discriminate Ha |].
    injection Ha as <-. rewrite <- py_round3_zero.
    apply py_round3_monotone.
    assert (Hz : (float_div 0 (inject_Z (len (t :: ts))) == 0)%Q).
    { unfold float_div. rewrite (to_float_zero 0) by reflexivity.
      rewrite (to_float_zero (0 / _)); [reflexivity | unfold Qdiv; ring]. }
    rewrite <- Hz. apply float_div_monotone; [unfold len; cbn; lia |].
    assert (Hsum : forall (xs : list Q) (acc : Q),
               (forall x, x ∈ xs -> (0 <= x)%Q) -> (0 <= acc)%Q ->
               (0 <= foldl float_add acc xs)%Q).
    { induction xs as [| x xs IH]; intros acc Hxs Hacc; [exact Hacc |].
      cbn [foldl]. apply IH; [intros y Hy; apply Hxs; now right |].
      unfold float_add. apply to_float_nonneg.
      pose proof (to_float_nonneg acc Hacc).
      pose proof (to_float_nonneg x (Hxs x ltac:(left))). lra. }
    apply Hsum; [exact Hpos | lra].
Qed.

Lemma avg_monotone_witness :
  (py_round3 (float_div (py_sum [1; 2; 3; 4; 5]) 5)
   <= py_round3 (float_div (py_sum [2; 2; 3; 5; 6]) 5))%Q.
Proof.
  apply (proj1 (avg_monotone five_samples (map timed [2; 2; 3; 5; 6]%Q)
                  ltac:(repeat constructor; discriminate))); reflexivity.
Defined.

Lemma filter_len_le {A} (P : A -> Prop) `{forall x, Decision (P x)} (xs : list A) :
  0 <= len (filter P xs) <= len xs.
Proof. unfold len. pose proof (length_filter P xs). lia. Qed.

Lemma errors_and_successes (rs : list LoadSample) :
  len (filter (fun r => is_error r = true) rs) + len (filter (fun r => is_200 r = true) rs)
  <= len rs.
Proof.
  unfold len. induction rs as [| r rs IH]; [reflexivity |].
  rewrite !filter_cons.
  destruct (decide (is_error r = true)) as [He | He],
           (decide (is_200 r = true)) as [Hs | Hs]; cbn [length]; try lia.
  unfold is_error, is_200 in He, Hs. destruct (sample_status r); discriminate.
Qed.

(** X2. The counters of the summary: [total] is the number of samples,
    [success] and [failures] are not negative and add up to [total], and
    every sample whose request raised is among the failures. *)
Theorem summarize_counts (rs : list LoadSample) :
  let s := summarize_load_results rs in
  total s = len rs
  /\ 0 <= success s <= total s
  /\ 0 <= failures s
  /\ success s + failures s = total s
  /\ error_count rs <= failures s.
Proof.
  cbn. pose proof (filter_len_le (fun r => is_200 r = true) rs).
  pose proof (errors_and_successes rs). unfold error_count. lia.
Qed.

(** *** The histogram *)



Lemma counter_add_sum (k : Q) (c : list (Q * Z)) :
  sum_sizes (map snd (counter_add k c)) = sum_sizes (map snd c) + 1.
Proof.
  induction c as [| [k0 n] c IH]; cbn; [reflexivity |].
  destruct (Qeq_bool k0 k); cbn; unfold sum_sizes in *; lia.
Qed.

Lemma counter_add_positive (k : Q) (c : list (Q * Z)) :
  Forall (fun kv => 1 <= snd kv) c -> Forall (fun kv => 1 <= snd kv) (counter_add k c).
Proof.
  induction 1 as [| [k0 n] c Hn Hc IH]; cbn.
  - constructor; [cbn; lia | constructor].
  - cbn in Hn. destruct (Qeq_bool k0 k); constructor; cbn; try assumption; lia.
Qed.

Lemma counter_add_keys (k x : Q) (c : list (Q * Z)) :
  InA Qeq x (map fst (counter_add k c)) -> InA Qeq x (map fst c) \/ (x == k)%Q.
Proof.
  induction c as [| [k0 n] c IH]; cbn.
  - intros Hx. inversion Hx as [? ? Heq | ? ? Hin]; subst; [now right | inversion Hin].
  - destruct (Qeq_bool k0 k); cbn; intros Hx; [now left |].
    inversion Hx as [? ? Heq | ? ? Hin]; subst.
    + left. now constructor.
    + destruct (IH Hin) as [Hc | Hk]; [left; now constructor 2 | now right].
Qed.

Lemma counter_add_distinct (k : Q) (c : list (Q * Z)) :
  NoDupA Qeq (map fst c) -> NoDupA Qeq (map fst (counter_add k c)).
Proof.
  induction c as [| [k0 n] c IH]; cbn; intros Hnd.
  - repeat constructor. intros Hin. inversion Hin.
  - inversion Hnd as [| ? ? Hnotin Hrest]; subst.
    destruct (Qeq_bool k0 k) eqn:H0k; cbn; [assumption |].
    constructor; [| now apply IH].
    intros Hin. apply counter_add_keys in Hin as [Hin | Heq]; [contradiction |].
    apply Qeq_bool_neq in H0k. contradiction.
Qed.

Lemma Counter_invariants (ks : list Q) (c : list (Q * Z)) :
  Forall (fun kv => 1 <= snd kv) c -> NoDupA Qeq (map fst c) ->
  let c' := foldl (fun c k => counter_add k c) c ks in
  sum_sizes (map snd c') = sum_sizes (map snd c) + len ks
  /\ Forall (fun kv => 1 <= snd kv) c'
  /\ NoDupA Qeq (map fst c').
Proof.
  revert c. induction ks as [| k ks IH]; intros c Hpos Hnd; cbn [foldl].
  - unfold len; cbn. repeat split; try assumption. lia.
  - destruct (IH (counter_add k c)) as (Hs & Hp & Hd);
      [now apply counter_add_positive | now apply counter_add_distinct |].
    cbn zeta in Hs, Hp, Hd. repeat split; try assumption.
    rewrite Hs, counter_add_sum. unfold len; cbn [length]. lia.
Qed.

Lemma histogram_totals_facts (rs : list LoadSample) :
  let h := histogram (summarize_load_results rs) in
  sum_sizes (map snd h) = len (sample_times rs)
  /\ Forall (fun kv => 1 <= snd kv) h
  /\ NoDupA Qeq (map fst h).
Proof.
  intros h. subst h.
  change (histogram (summarize_load_results rs))
    with (Counter (map bucket (sample_times rs))).
  unfold Counter.
  destruct (Counter_invariants (map bucket (sample_times rs)) []) as (Hs & Hp & Hd);
    [constructor | constructor |].
  cbn zeta in Hs, Hp, Hd. repeat split; try assumption.
  rewrite Hs. unfold len. rewrite length_map. cbn. lia.
Qed.


(** X3. The histogram has one entry per bucket met (no two keys are equal),
    every entry counts at least one sample, and the counts add up to the
    number of samples that have a time. *)
Theorem histogram_totals (rs : list LoadSample) :
  let h := histogram (summarize_load_results rs) in
  sum_sizes (map snd h) = len (sample_times rs)
  /\ Forall (fun kv => 1 <= snd kv) h
  /\ NoDupA Qeq (map fst h).
Proof. exact (histogram_totals_facts rs). Qed.





(** *** The percentile *)

Lemma count_le_perm (v : Q) (s s' : list Q) :
  Permutation s s' -> count_le v s = count_le v s'.
Proof.
  unfold count_le. induction 1 as [| x l l' _ IH | x y l | l l' l'' _ IH1 _ IH2]; simpl.
  - reflexivity.
  - destruct (Qle_bool x v); simpl; congruence.
  - destruct (Qle_bool x v), (Qle_bool y v); reflexivity.
  - congruence.
Qed.

Lemma p95_index_second_largest (n : nat) :
  (2 <= n)%nat ->
  let idx := Qfloor ((95 # 100) * inject_Z (Z.of_nat n - 1)) in
  idx <= Z.of_nat n - 2 /\ ((n <= 21)%nat -> idx = Z.of_nat n - 2).
Proof.
  intros Hn idx. subst idx.
  set (m := Z.of_nat n - 1).
  assert (Hm : (1 <= inject_Z m)%Q).
  { change 1%Q with (inject_Z 1). rewrite <- Zle_Qle. subst m. lia. }
  assert (Hup : Qfloor ((95 # 100) * inject_Z m) < m).
  { apply Z.lt_nge. intros Hge. rewrite Zle_Qle in Hge.
    pose proof (Qfloor_le ((95 # 100) * inject_Z m)). lra. }
  split; [subst m; lia |].
  intros H21.
  assert (Hm20 : (inject_Z m <= 20)%Q).
  { change 20%Q with (inject_Z 20). rewrite <- Zle_Qle. subst m. lia. }
  assert (Hlow : (inject_Z (m - 1) <= (95 # 100) * inject_Z m)%Q).
  { unfold Z.sub. rewrite inject_Z_plus, inject_Z_opp. change (inject_Z 1) with 1%Q. lra. }
  apply Qfloor_resp_le in Hlow. rewrite Qfloor_Z in Hlow. subst m. lia.
Qed.

(** X5. The percentile reported is one of the sample times, chosen by rank:
    at most [idx] times are below it and more than [idx] are at most it, for
    [idx] = floor(0.95 (n - 1)).  With two samples or more the rank stays
    below the last one, and with 2 to 21 samples it is the last but one: the
    percentile is then the second-largest time. *)
Theorem p95_nearest_rank (rs : list LoadSample) (p : Q) :
  p95 (summarize_load_results rs) = Some p ->
  let ts := sample_times rs in
  let idx := Z.to_nat (Qfloor ((95 # 100) * inject_Z (len ts - 1))) in
  p ∈ ts
  /\ (count_lt p ts <= idx)%nat
  /\ (idx < count_le p ts)%nat
  /\ ((2 <= length ts)%nat -> (idx + 2 <= length ts)%nat)
  /\ ((2 <= length ts <= 21)%nat -> (idx + 2 = length ts)%nat).
Proof.
  intros Hp ts idx. rewrite summarize_p95 in Hp. fold ts in Hp. fold idx in Hp.
  assert (Hlook : sorted ts !! idx = Some p) by (destruct ts; [discriminate Hp | exact Hp]).
  pose proof (sorted_perm ts) as Hperm.
  destruct (sorted_rank (sorted ts) idx p (sorted_sorted ts) Hlook) as [Hlo Hhi].
  rewrite (count_lt_perm p _ _ Hperm) in Hlo.
  rewrite (count_le_perm p _ _ Hperm) in Hhi.
  split.
  { rewrite <- Hperm. eapply list_elem_of_lookup_2. exact Hlook. }
  split; [assumption |]. split; [assumption |].
  split.
  - intros H2. destruct (p95_index_second_largest (length ts) H2) as [Hle _].
    subst idx. unfold len. lia.
  - intros [H2 H21]. destruct (p95_index_second_largest (length ts) H2) as [_ Heq].
    specialize (Heq H21).
    destruct (p95_index (length ts)) as [_ Hr]; [lia |].
    subst idx. unfold len. lia.
Qed.

Lemma p95_nearest_rank_witness : inject_Z 4 ∈ sample_times five_samples.
Proof.
  apply (p95_nearest_rank five_samples (inject_Z 4)). reflexivity.
Defined.

(** ** More on the autoscaler *)

(** X6. [auto_scale] fails (with the division by zero) exactly when the
    average is positive and the target is zero; an undefined or non-positive
    average never divides. *)
Theorem auto_scale_raises_iff (avg_time : option Q) (target : Q) (ls : LoadSummary) :
  auto_scale avg_time target ls = None
  <-> exists a, avg_time = Some a /\ (0 < a)%Q /\ (target == 0)%Q.
Proof.
  unfold auto_scale. split.
  - destruct avg_time as [a |]; [| discriminate].
    destruct (Qle_bool a 0) eqn:Hle; [discriminate |].
    destruct (Qeq_bool target 0) eqn:Heq; [| discriminate].
    intros _. exists a. split; [reflexivity |]. split.
    + destruct (Qlt_le_dec 0 a) as [Hlt | Hge]; [assumption |].
      apply Qle_bool_iff in Hge. congruence.
    + now apply Qeq_bool_iff.
  - intros (a & -> & Ha & Ht).
    assert (Hle : Qle_bool a 0 = false).
    { apply not_true_is_false. intros H. apply Qle_bool_iff in H. lra. }
    apply Qeq_bool_iff in Ht. now rewrite Hle, Ht.
Qed.

(** X7. For a positive average and target, no fleet that meets the target
    with the margin of one rounding is smaller than the one returned: any
    number [n >= 1] of servers with avg / n (1 + 2^-53) <= target is at least
    the number [auto_scale] returns. *)
Theorem auto_scale_servers_minimal (a target : Q) (ls : LoadSummary)
    (e : ScaleEstimate) (n : Z) :
  (0 < to_float a)%Q -> (0 < to_float target)%Q ->
  auto_scale (Some a) target ls = Some e ->
  1 <= n -> (to_float a / inject_Z n * (1 + pow2 (-53)) <= to_float target)%Q ->
  servers e <= n.
Proof.
  intros HA' Ht He Hn Hfit. pose proof (to_float_positive target Ht) as Ht'.
  pose proof (to_float_positive a HA') as Ha.
  rewrite (auto_scale_positive a target ls Ha Ht') in He. injection He as <-.
  cbn [servers]. apply Z.max_lub; [assumption |].
  assert (Hn1 : (1 <= inject_Z n)%Q).
  { change 1%Q with (inject_Z 1). now rewrite <- Zle_Qle. }
  pose proof (to_float_nonneg a ltac:(lra)) as HA.
  assert (He : (0 < pow2 (-53) < 1)%Q) by (split; reflexivity).
  assert (Hle : (float_div a target <= inject_Z n)%Q).
  { unfold float_div.
    set (A := to_float a) in *. set (T := to_float target) in *.
    set (N := inject_Z n) in *. set (eps := pow2 (-53)) in *.
    assert (Hxn : (A / T * (1 + eps) <= N)%Q).
    { assert (HAn : (A / N * N == A)%Q) by (field; lra).
      assert (HAT : (A / T * T == A)%Q) by (field; lra).
      assert (H0 : (0 <= A / N)%Q) by (apply Qle_shift_div_l; lra).
      assert (H1 : (0 <= A / T)%Q) by (apply Qle_shift_div_l; lra).
      set (y := (A / N)%Q) in *. set (x := (A / T)%Q) in *.
      assert (Hm : (x * (1 + eps) * T <= N * T)%Q) by nra.
      nra. }
    destruct (Qlt_le_dec (A / T) (pow2 (-1022))) as [Hsmall | Hbig].
    - assert (Hmin : (to_float (pow2 (-1022)) == pow2 (-1022))%Q) by (vm_compute; reflexivity).
      pose proof (to_float_monotone (A / T) (pow2 (-1022)) ltac:(lra)) as Hm.
      rewrite Hmin in Hm. pose proof pow2_min_normal_le_one. lra.
    - destruct (to_float_error (A / T) Hbig) as [_ Hu]. fold eps in Hu. lra. }
  apply Qceiling_resp_le in Hle. rewrite Qceiling_Z in Hle. exact Hle.
Qed.

Lemma auto_scale_servers_minimal_witness :
  servers {| servers := 3;
             scaled_avg := Some (py_round3 (float_div (7 # 2) (inject_Z 3)));
             processed := 5; failed := 0 |} <= 4.
Proof.
  apply (auto_scale_servers_minimal (7 # 2) (3 # 2) (summarize_load_results five_samples)
           _ 4); try (vm_compute; reflexivity); try lia.
  vm_compute. discriminate.
Defined.

Lemma py_round3_to_float (x : Q) : py_round3 (to_float x) = py_round3 x.
Proof. unfold py_round3. apply round3_exact_proper, to_float_idempotent. Qed.

(** X8. For a positive average and target, the scaled average reported is
    not negative, not above the average rounded to 3 decimals, and not above
    the target, taken up by one rounding, rounded to 3 decimals; for the
    handler's target that bound is 1.5. *)
Theorem auto_scale_scaled_avg_bounds (a target : Q) (ls : LoadSummary) (e : ScaleEstimate) :
  (0 < to_float a)%Q -> (0 < to_float target)%Q ->
  auto_scale (Some a) target ls = Some e ->
  (exists v, scaled_avg e = Some v
             /\ (0 <= v)%Q /\ (v <= py_round3 a)%Q
             /\ (v <= py_round3 (to_float target / (1 - pow2 (-53))))%Q)
  /\ (py_round3 (to_float (3 # 2) / (1 - pow2 (-53))) == 3 # 2)%Q.
Proof.
  intros HA' Ht He. split; [| vm_compute; reflexivity].
  pose proof (to_float_positive target Ht) as Ht'.
  pose proof (to_float_positive a HA') as Ha.
  rewrite (auto_scale_positive a target ls Ha Ht') in He. injection He as <-.
  cbn [scaled_avg]. eexists. split; [reflexivity |].
  destruct (servers_ge_quotient a target) as [Hn1 Hnq].
  set (n := Z.max 1 (math_ceil (float_div a target))) in *.
  assert (Hn : 1 <= n) by (subst n; lia).
  pose proof (to_float_ge_one n Hn) as HN1.
  pose proof (to_float_nonneg a ltac:(lra)) as HA.
  assert (HNq : (float_div a target <= to_float (inject_Z n))%Q).
  { rewrite <- (float_div_idempotent a target). now apply to_float_monotone. }
  pose proof (quotient_cover a target (to_float (inject_Z n)) HA Ht HN1 HNq) as Hc.
  assert (He : (0 < pow2 (-53) < 1)%Q) by (split; reflexivity).
  repeat split.
  - rewrite <- py_round3_zero. apply py_round3_monotone.
    unfold float_div. apply to_float_nonneg. apply Qle_shift_div_l; lra.
  - rewrite <- (py_round3_to_float a). apply py_round3_monotone.
    unfold float_div. apply Qle_trans with (to_float (to_float a));
      [| rewrite to_float_idempotent; apply Qle_refl].
    apply to_float_monotone.
    apply Qle_shift_div_r; [lra |].
    set (A := to_float a) in *. set (N := to_float (inject_Z n)) in *. nra.
  - rewrite <- (py_round3_to_float (to_float target / _)). apply py_round3_monotone.
    unfold float_div. apply to_float_monotone.
    set (A := to_float a) in *. set (N := to_float (inject_Z n)) in *.
    set (T := to_float target) in *. set (eps := pow2 (-53)) in *.
    apply Qle_shift_div_r; [lra |].
    assert (HTe : (T / (1 - eps) * (1 - eps) == T)%Q) by (field; lra).
    assert (H0 : (0 <= T / (1 - eps))%Q) by (apply Qle_shift_div_l; lra).
    set (y := (T / (1 - eps))%Q) in *. nra.
Qed.

Lemma auto_scale_scaled_avg_bounds_witness :
  (exists v, scaled_avg {| servers := 3;
                           scaled_avg := Some (py_round3 (float_div (7 # 2) (inject_Z 3)));
                           processed := 5; failed := 0 |} = Some v
             /\ (0 <= v)%Q /\ (v <= py_round3 (7 # 2))%Q
             /\ (v <= py_round3 (to_float (3 # 2) / (1 - pow2 (-53))))%Q)
  /\ (py_round3 (to_float (3 # 2) / (1 - pow2 (-53))) == 3 # 2)%Q.
Proof.
  apply (auto_scale_scaled_avg_bounds (7 # 2) (3 # 2) (summarize_load_results five_samples));
    vm_compute; reflexivity.
Defined.

(** ** More on the load generator *)

Lemma full_waves_step (remaining : Z) :
  0 < remaining ->
  full_waves remaining
  = Z.min batch_size remaining :: full_waves (remaining - Z.min batch_size remaining).
Proof.
  intros Hpos. unfold full_waves, batch_size.
  pose proof (Z.div_mod remaining 300) as Hdm.
  pose proof (Z.mod_pos_bound remaining 300) as Hmb.
  destruct (Z.leb_spec remaining 0) as [| _]; [lia |].
  destruct (Z.le_gt_cases 300 remaining) as [Hbig | Hsmall].
  - rewrite Z.min_l by lia.
    pose proof (Z.div_mod (remaining - 300) 300) as Hdm'.
    pose proof (Z.mod_pos_bound (remaining - 300) 300) as Hmb'.
    assert (Hq : (remaining - 300) / 300 = remaining / 300 - 1) by lia.
    assert (Hm : (remaining - 300) mod 300 = remaining mod 300) by lia.
    assert (Hn : Z.to_nat (remaining / 300) = S (Z.to_nat ((remaining - 300) / 300))) by lia.
    rewrite Hn, Hm. cbn [repeat app].
    destruct (Z.leb_spec (remaining - 300) 0) as [Hz | _]; [| reflexivity].
    assert (Hq0 : (remaining - 300) / 300 = 0) by lia.
    assert (Hm0 : remaining mod 300 = 0) by lia.
    rewrite Hq0, Hm0. reflexivity.
  - rewrite Z.min_r by lia.
    assert (Hq : remaining / 300 = 0) by lia.
    assert (Hm : remaining mod 300 = remaining) by lia.
    rewrite Hq, Hm, Z.sub_diag. cbn.
    destruct (Z.eqb_spec remaining 0); [lia | reflexivity].
Qed.

Lemma wave_sizes_full (fuel : nat) (remaining : Z) :
  sum_sizes (wave_sizes fuel remaining) = Z.max 0 remaining ->
  wave_sizes fuel remaining = full_waves remaining.
Proof.
  revert remaining. induction fuel as [| fuel IH]; intros remaining Hsum.
  - cbn in *. unfold full_waves. destruct (Z.leb_spec remaining 0); [reflexivity | lia].
  - cbn [wave_sizes] in *. destruct (Z.ltb_spec 0 remaining) as [Hpos | Hle].
    + rewrite full_waves_step by assumption. f_equal. apply IH.
      cbn in Hsum. unfold sum_sizes, batch_size in *. lia.
    + unfold full_waves. destruct (Z.leb_spec remaining 0); [reflexivity | lia].
Qed.

Section LoadSamples.
Context {E : Env}.
Variable u : string.

Lemma fetch_once_consistent (w : World) : sample_consistent (fst (fetch_once u w)).
Proof.
  unfold fetch_once. run_io.
  destruct (time_time w) as [t0 w0].
  destruct (requests_get u [] w0) as [[e | resp] w1].
  - cbn. split; reflexivity.
  - destruct (time_time w1) as [t1 w2]. cbn. split; discriminate.
Qed.

Lemma run_wave_consistent (n : nat) (w : World) :
  Forall sample_consistent (fst (run_wave n u w)).
Proof.
  revert w. induction n as [| n IH]; intros w; [constructor |].
  cbn [run_wave]. run_io.
  pose proof (fetch_once_consistent w) as Hs.
  destruct (fetch_once u w) as [s w1].
  specialize (IH w1). destruct (run_wave n u w1) as [ss w2].
  cbn in *. now constructor.
Qed.

Lemma load_loop_consistent (fuel : nat) (remaining : Z) (waves res : list (list LoadSample))
    (w w' : World) :
  Forall (Forall sample_consistent) waves ->
  load_loop fuel u remaining waves w = (Some res, w') ->
  Forall (Forall sample_consistent) res.
Proof.
  revert remaining waves w. induction fuel as [| fuel IH]; intros remaining waves w Hw Hloop.
  - discriminate Hloop.
  - cbn [load_loop] in Hloop. destruct (0 <? remaining)%Z.
    + run_io. pose proof (run_wave_consistent (Z.to_nat (Z.min batch_size remaining)) w) as Hss.
      destruct (run_wave (Z.to_nat (Z.min batch_size remaining)) u w) as [ss w1].
      cbn [fst] in Hss. apply IH in Hloop; [assumption |].
      apply Forall_app. split; [assumption | now constructor].
    + run_io. now injection Hloop as <- <-.
Qed.

Lemma load_loop_idle (fuel : nat) (remaining : Z) (waves res : list (list LoadSample))
    (w w' : World) :
  remaining <= 0 ->
  load_loop fuel u remaining waves w = (Some res, w') ->
  res = waves /\ w' = w.
Proof.
  intros Hle Hloop. destruct fuel as [| fuel]; [discriminate Hloop |].
  cbn [load_loop] in Hloop. destruct (Z.ltb_spec 0 remaining); [lia |].
  run_io. now injection Hloop as <- <-.
Qed.

End LoadSamples.

(** X9. Whatever the number of users, [run_load_test] returns, with
    max(0, users) samples: full waves of 300 followed by one wave with the
    rest when the number is not a multiple of 300.  For no user, or a
    negative number, it returns the empty list without a single request. *)
Theorem run_load_test_any_users {E : Env} (u : string) (users : Z) (w : World) :
  (exists rs w', run_load_test (S (Z.to_nat users)) u users w = (Some rs, w'))
  /\ (forall fuel rs w',
        run_load_test fuel u users w = (Some rs, w') ->
        len rs = Z.max 0 users
        /\ (exists ws, fst (load_waves fuel u users w) = Some ws
                       /\ rs = concat ws
                       /\ map len ws = full_waves users)
        /\ (users <= 0 -> rs = [] /\ w' = w)).
Proof.
  split.
  - destruct (load_loop_terminates u (S (Z.to_nat users)) users [] w) as (ws & w' & Hw); [lia |].
    exists (concat ws), w'. rewrite run_load_test_waves. unfold load_waves. now rewrite Hw.
  - intros fuel rs w' Hrun. rewrite run_load_test_waves in Hrun.
    destruct (load_waves fuel u users w) as [[ws |] w1] eqn:Hw; [| discriminate Hrun].
    cbn in Hrun. injection Hrun as <- <-.
    unfold load_waves in Hw.
    pose proof (load_loop_waves u _ _ _ _ _ _ Hw) as (ws' & -> & Hs & Hsum).
    cbn [app] in *. split; [| split].
    + rewrite len_concat, Hs, Hsum. reflexivity.
    + exists ws'. repeat split. rewrite Hs. now apply wave_sizes_full.
    + intros Hle. destruct (load_loop_idle u _ _ _ _ _ _ Hle Hw) as [-> ->]. now split.
Qed.

Lemma consistent_times (rs : list LoadSample) :
  Forall sample_consistent rs ->
  len (sample_times rs) = len rs - error_count rs
  /\ len (filter (fun r => is_200 r = true) rs) <= len (sample_times rs).
Proof.
  unfold error_count, sample_times, len.
  induction 1 as [| r rs Hr _ IH]; [cbn; lia |].
  rewrite !filter_cons. cbn [omap list_omap length].
  unfold sample_consistent in Hr.
  destruct (decide (is_error r = true)) as [He | He],
           (decide (is_200 r = true)) as [Hs | Hs];
    unfold is_error, is_200 in He, Hs;
    destruct (sample_status r) as [| c] eqn:Hst; try discriminate; try congruence.
  - assert (Hnone : sample_time r = None) by now apply Hr.
    rewrite Hnone. cbn [length]. lia.
  - destruct (sample_time r) as [t |] eqn:Ht; [cbn [length]; lia |].
    assert (Hbad : StatusCode c = StatusError) by now apply Hr. discriminate Hbad.
  - destruct (sample_time r) as [t |] eqn:Ht; [cbn [length]; lia |].
    assert (Hbad : StatusCode c = StatusError) by now apply Hr. discriminate Hbad.
Qed.

(** X10. In what [run_load_test] returns, a sample has no time exactly when
    its request raised.  In the summary of these samples the timed samples
    are the total less the raised requests, they include every success, and
    the average is undefined exactly when every request raised. *)
Theorem load_summary_timing {E : Env} (u : string) (users : Z) (fuel : nat)
    (w w' : World) (rs : list LoadSample) :
  run_load_test fuel u users w = (Some rs, w') ->
  let s := summarize_load_results rs in
  Forall sample_consistent rs
  /\ len (sample_times rs) = total s - error_count rs
  /\ success s <= len (sample_times rs)
  /\ (avg s = None <-> error_count rs = total s).
Proof.
  intros Hrun s. subst s.
  assert (Hcons : Forall sample_consistent rs).
  { rewrite run_load_test_waves in Hrun.
    destruct (load_waves fuel u users w) as [[ws |] w1] eqn:Hw; [| discriminate Hrun].
    cbn in Hrun. injection Hrun as <- <-.
    unfold load_waves in Hw. apply load_loop_consistent in Hw; [| constructor].
    apply Forall_concat. exact Hw. }
  destruct (consistent_times rs Hcons) as [Htimes Hsucc].
  split; [assumption |]. split; [exact Htimes |]. split; [exact Hsucc |].
  rewrite summarize_avg. change (total (summarize_load_results rs)) with (len rs).
  destruct (sample_times rs) as [| t ts] eqn:Ht.
  - unfold len in *. cbn in Htimes. split; [intros _; lia | reflexivity].
  - unfold len in *. cbn [length] in Htimes. split; [discriminate | lia].
Qed.

Lemma load_summary_timing_witness :
  Forall sample_consistent
    [ {| sample_status := StatusError; sample_time := None |};
      {| sample_status := StatusError; sample_time := None |} ].
Proof.
  apply (@load_summary_timing Demo.env "http://down.test/" 2 3 0 2). reflexivity.
Defined.

(** ** More on the crawler *)

Section CrawlOrder.
Context {E : Env}.
Variables (start_url : string) (max_pages : Z).

(** Past the initial state the page limit is positive and the first record
    is the one of the start URL. *)
Lemma crawl_reaches_first (st : CrawlState) (w : World) :
  crawl_reaches start_url max_pages st w ->
  st = crawl_init start_url
  \/ (1 <= max_pages
      /\ exists res rest, results st = res :: rest /\ url res = start_url).
Proof.
  induction 1 as [w | st w st' w' Hreach IH Hcont Hbody]; [now left |].
  right.
  pose proof (crawl_body_iteration start_url max_pages st st' w w' Hcont Hbody) as Hit.
  split.
  { unfold crawl_continues in Hcont. destruct (queue st); [discriminate Hcont |].
    apply Z.ltb_lt in Hcont. lia. }
  destruct IH as [-> | (_ & res0 & rest0 & Hres0 & Hurl0)].
  - destruct Hit as [u q Hq Hu -> | u q res hrefs Hq Hu Hres ->]; cbn in *.
    + set_solver.
    + injection Hq as <- <-. now exists res, [].
  - destruct Hit as [u q Hq Hu -> | u q res hrefs Hq Hu Hres ->]; cbn.
    + now exists res0, rest0.
    + rewrite Hres0. now exists res0, (rest0 ++ [res])%list.
Qed.

Lemma crawl_loop_idle (fuel : nat) (st st' : CrawlState) (w w' : World) :
  crawl_continues max_pages st = false ->
  crawl_loop fuel start_url max_pages st w = (Some st', w') ->
  st' = st /\ w' = w.
Proof.
  intros Hc Hloop. destruct fuel as [| fuel]; [discriminate Hloop |].
  cbn [crawl_loop] in Hloop. rewrite Hc in Hloop. run_io. now injection Hloop as <- <-.
Qed.

End CrawlOrder.

(** X11. The result of [crawl_site] is empty exactly when the page limit is
    below 1, and then no request is made; with a limit of 1 or more the first
    record is the one of the start URL, whether its fetch succeeded or not. *)
Theorem crawl_site_first_page {E : Env} (start_url : string) (max_pages : Z)
    (fuel : nat) (w w' : World) (rs : list PageResult) :
  crawl_site fuel start_url max_pages w = (Some rs, w') ->
  (rs = [] <-> max_pages <= 0)
  /\ (max_pages <= 0 -> w' = w)
  /\ (1 <= max_pages -> exists res rest, rs = res :: rest /\ url res = start_url).
Proof.
  intros Hrun.
  destruct (crawl_site_results start_url max_pages fuel rs w w' Hrun) as (st & Hreach & Hcont & ->).
  assert (Hinit : crawl_continues max_pages (crawl_init start_url) = (0 <? max_pages)%Z)
    by reflexivity.
  destruct (crawl_reaches_first start_url max_pages st w' Hreach)
    as [-> | (Hmax & res & rest & Hres & Hurl)].
  - rewrite Hinit in Hcont. apply Z.ltb_ge in Hcont.
    split; [split; [intros _; assumption | reflexivity] |].
    split; [| intros H1; lia].
    intros _. unfold crawl_site in Hrun. run_io.
    destruct (crawl_loop fuel start_url max_pages (crawl_init start_url) w)
      as [[st |] w1] eqn:Hloop; cbn in Hrun; [| discriminate Hrun].
    injection Hrun as _ <-.
    apply crawl_loop_idle in Hloop; [now destruct Hloop |].
    rewrite Hinit. now apply Z.ltb_ge.
  - rewrite Hres. split; [split; [discriminate | lia] |].
    split; [lia |]. intros _. now exists res, rest.
Qed.

Lemma crawl_site_first_page_witness :
  exists res rest,
    [ fst (@analyze_page Demo.env "http://down.test/" 0) ] = res :: rest
    /\ url res = "http://down.test/".
Proof.
  apply (@crawl_site_first_page Demo.env "http://down.test/" 3 4 0 1).
  - reflexivity.
  - lia.
Defined.



(** X13. For a page limit that is not negative, [crawl_site] stops short of
    the limit only when the frontier is exhausted: its result has exactly
    [max_pages] records, or the queue is empty at the end. *)
Theorem crawl_site_stops {E : Env} (start_url : string) (max_pages : Z)
    (fuel : nat) (w w' : World) (rs : list PageResult) :
  0 <= max_pages ->
  crawl_site fuel start_url max_pages w = (Some rs, w') ->
  exists st, crawl_reaches start_url max_pages st w'
             /\ rs = results st
             /\ (queue st = [] \/ len rs = max_pages).
Proof.
  intros Hmax Hrun.
  destruct (crawl_site_results start_url max_pages fuel rs w w' Hrun) as (st & Hreach & Hcont & ->).
  exists st. split; [assumption |]. split; [reflexivity |].
  destruct (crawl_reaches_inv start_url max_pages st w' Hreach) as [Hinv Hbound].
  unfold crawl_continues in Hcont. destruct (queue st) as [| u q]; [now left |].
  right. apply Z.ltb_ge in Hcont. specialize (Hbound Hmax).
  unfold len. rewrite (inv_count _ _ Hinv). lia.
Qed.

Lemma crawl_site_stops_witness :
  exists st, @crawl_reaches Demo.env "http://down.test/" 3 st 1
             /\ [ fst (@analyze_page Demo.env "http://down.test/" 0) ] = results st
             /\ (queue st = [] \/ len [ fst (@analyze_page Demo.env "http://down.test/" 0) ] = 3).
Proof.
  apply (@crawl_site_stops Demo.env "http://down.test/" 3 4 0 1).
  - lia.
  - reflexivity.
Defined.

(** ** More on the page auditor *)











(** ** The recommendations *)

(** *** The de-duplication loop *)

Lemma dedupe_loop_spec (recs : list string) (seen : gset string) (deduped : list string) :
  (forall x, x ∈ seen <-> x ∈ deduped) -> NoDup deduped ->
  exists kept,
    dedupe_loop recs seen deduped = (deduped ++ kept)%list
    /\ sublist kept recs
    /\ NoDup (deduped ++ kept)
    /\ (forall x, x ∈ recs -> x ∈ (deduped ++ kept)%list).
Proof.
  revert seen deduped. induction recs as [| r recs IH]; intros seen deduped Hseen Hnd; cbn.
  - exists []. rewrite app_nil_r. repeat split; [constructor | assumption |].
    intros x Hx. inversion Hx.
  - destruct (bool_decide (r ∈ seen)) eqn:Hr.
    + apply bool_decide_eq_true in Hr.
      destruct (IH seen deduped Hseen Hnd) as (kept & Heq & Hsub & Hnd' & Hall).
      exists kept. repeat split; try assumption.
      * now apply sublist_cons.
      * intros x Hx. apply elem_of_cons in Hx as [-> | Hx]; [| now apply Hall].
        apply elem_of_app. left. now apply Hseen.
    + apply bool_decide_eq_false in Hr.
      destruct (IH ({[r]} ∪ seen) (deduped ++ [r])%list) as (kept & Heq & Hsub & Hnd' & Hall).
      * intros x. rewrite elem_of_union, elem_of_singleton, elem_of_app,
          list_elem_of_singleton, Hseen. tauto.
      * apply NoDup_app. repeat split; [assumption | | apply NoDup_singleton].
        intros x Hx Hx'. apply list_elem_of_singleton in Hx'. subst x.
        apply Hr. now apply Hseen.
      * exists (r :: kept). rewrite <- app_assoc in Heq, Hnd', Hall. cbn in Heq, Hnd', Hall.
        repeat split; try assumption.
        -- now apply sublist_skip.
        -- intros x Hx. apply elem_of_cons in Hx as [-> | Hx]; [| now apply Hall].
           apply elem_of_app. right. now left.
Qed.

Lemma sublist_full {A} (l1 l2 : list A) :
  sublist l1 l2 -> (length l2 <= length l1)%nat -> l1 = l2.
Proof.
  induction 1 as [| x l1 l2 Hsub IH | x l1 l2 Hsub IH]; cbn; intros Hlen.
  - reflexivity.
  - f_equal. apply IH. lia.
  - apply sublist_length in Hsub. lia.
Qed.

Lemma dedupe_loop_NoDup_id (recs : list string) :
  NoDup recs -> dedupe_loop recs ∅ [] = recs.
Proof.
  intros Hnd.
  destruct (dedupe_loop_spec recs ∅ []) as (kept & Heq & Hsub & _ & Hall);
    [intros x; split; intros H; [set_solver | inversion H] | constructor |].
  cbn in Heq, Hall. rewrite Heq.
  apply sublist_length in Hsub as Hlen.
  assert (Hperm : recs ⊆+ kept).
  { apply NoDup_submseteq; assumption. }
  apply submseteq_length in Hperm.
  apply sublist_full; [assumption | lia].
Qed.

(** The loop returns what it was given, then the first occurrences that it
    has not seen. *)
Lemma dedupe_loop_first (recs : list string) (seen : gset string) (deduped : list string) :
  dedupe_loop recs seen deduped
  = (deduped ++ filter (fun y => y ∉ seen) (first_occurrences recs))%list.
Proof.
  revert seen deduped. induction recs as [| r recs IH]; intros seen deduped.
  - cbn. now rewrite app_nil_r.
  - cbn [dedupe_loop first_occurrences].
    destruct (bool_decide (r ∈ seen)) eqn:Hr.
    + apply bool_decide_eq_true in Hr.
      rewrite IH, filter_cons_False by (intros H; now apply H).
      f_equal. rewrite list_filter_filter. apply list_filter_iff.
      intros y. split; [| tauto]. intros Hy. split; [assumption |]. now intros ->.
    + apply bool_decide_eq_false in Hr.
      rewrite IH, filter_cons_True by assumption.
      rewrite <- app_assoc. cbn. do 2 f_equal.
      rewrite list_filter_filter. apply list_filter_iff.
      intros y. rewrite elem_of_union, elem_of_singleton. tauto.
Qed.

(** The loop over a list in two parts. *)
Lemma dedupe_loop_app (l1 l2 : list string) (seen : gset string) (deduped : list string) :
  exists seen',
    (forall x, x ∈ seen' <-> x ∈ seen \/ x ∈ l1)
    /\ dedupe_loop (l1 ++ l2) seen deduped = dedupe_loop l2 seen' (dedupe_loop l1 seen deduped).
Proof.
  revert seen deduped. induction l1 as [| r l1 IH]; intros seen deduped.
  - exists seen. split; [| reflexivity]. intros x. split; [tauto |].
    intros [H | H]; [assumption | inversion H].
  - cbn [app dedupe_loop]. destruct (bool_decide (r ∈ seen)) eqn:Hr.
    + apply bool_decide_eq_true in Hr.
      destruct (IH seen deduped) as (seen' & Hs & Heq). exists seen'. split; [| exact Heq].
      intros x. rewrite Hs, elem_of_cons. split; [tauto |].
      intros [H | [-> | H]]; tauto.
    + destruct (IH ({[r]} ∪ seen) (deduped ++ [r])%list) as (seen' & Hs & Heq).
      exists seen'. split; [| exact Heq].
      intros x. rewrite Hs, elem_of_union, elem_of_singleton, elem_of_cons. tauto.
Qed.

(** *** The advisories *)

Lemma foldl_add_sum (a : Z) (ks : list Z) : foldl Z.add a ks = a + sum_sizes ks.
Proof.
  revert a. induction ks as [| k ks IH]; intros a; cbn; [lia |].
  rewrite IH. unfold sum_sizes. lia.
Qed.

Lemma sum_sizes_cons (k : Z) (ks : list Z) : sum_sizes (k :: ks) = k + sum_sizes ks.
Proof. reflexivity. Qed.

Lemma sum_lens_nonneg {A B} (f : A -> list B) (xs : list A) :
  0 <= sum_sizes (map (fun x => len (f x)) xs).
Proof.
  induction xs as [| x xs IH]; [reflexivity |].
  cbn [map]. rewrite sum_sizes_cons. unfold len in *. lia.
Qed.

Lemma sec_count_zero (rs : list PageResult) :
  sec_count rs = 0 <-> forall r, r ∈ rs -> security r = [].
Proof.
  unfold sec_count. rewrite foldl_add_sum, Z.add_0_l.
  induction rs as [| r rs IH]; cbn [map].
  - split; [intros _ r Hr; inversion Hr | reflexivity].
  - rewrite sum_sizes_cons.
    pose proof (sum_lens_nonneg security rs) as Hnn.
    assert (Hlen : 0 <= len (security r)) by (unfold len; lia).
    split.
    + intros Hsum r' Hr'. apply elem_of_cons in Hr' as [-> | Hr'].
      * destruct (security r); [reflexivity | unfold len in *; cbn in *; lia].
      * apply IH; [lia | assumption].
    + intros Hall. rewrite (Hall r) by (now left).
      assert (Hrest : sum_sizes (map (fun r0 => len (security r0)) rs) = 0).
      { apply IH. intros r' Hr'. apply Hall. now right. }
      rewrite Hrest. reflexivity.
Qed.

Lemma any_findings_spec (field : PageResult -> list string) (rs : list PageResult) :
  any_findings field rs = true <-> exists r, r ∈ rs /\ field r <> [].
Proof.
  unfold any_findings. rewrite existsb_exists. split.
  - intros (r & Hin & Hf). exists r. split; [now apply list_elem_of_In |].
    destruct (field r); [discriminate Hf | discriminate].
  - intros (r & Hin & Hf). exists r. split; [now apply list_elem_of_In |].
    destruct (field r); [contradiction | reflexivity].
Qed.

Lemma avg_above_target_spec (ls : LoadSummary) :
  avg_above_target ls = true <-> exists a, avg ls = Some a /\ (3 # 2 < a)%Q.
Proof.
  unfold avg_above_target. destruct (avg ls) as [a |].
  - rewrite andb_true_iff, !negb_true_iff. split.
    + intros [_ Hle]. exists a. split; [reflexivity |].
      destruct (Qlt_le_dec (3 # 2) a) as [Hlt | Hge]; [assumption |].
      apply Qle_bool_iff in Hge. congruence.
    + intros (a' & [= <-] & Hlt). split.
      * apply not_true_is_false. intros H. apply Qeq_bool_iff in H. lra.
      * apply not_true_is_false. intros H. apply Qle_bool_iff in H. lra.
  - split; [discriminate | intros (a & Ha & _); discriminate Ha].
Qed.

Section RecommendationFacts.
Variable str_float : option Q -> string.

Lemma autoscale_advice_fresh (scaled : ScaleEstimate) (x : string) :
  x ∈ (security_advice ++ seo_advice ++ accessibility_advice
       ++ infrastructure_advice ++ [capacity_ok] ++ general_advice)%list ->
  x <> autoscale_advice str_float scaled.
Proof.
  intros Hx Heq. unfold autoscale_advice in Heq. cbn in Hx.
  repeat (apply elem_of_cons in Hx as [-> | Hx]; [cbn in Heq; discriminate Heq |]).
  inversion Hx.
Qed.

Lemma all_advice_NoDup (scaled : ScaleEstimate) :
  NoDup (security_advice ++ seo_advice ++ accessibility_advice
         ++ ((autoscale_advice str_float scaled :: infrastructure_advice) ++ [capacity_ok])
         ++ general_advice)%list.
Proof.
  assert (Hperm : (security_advice ++ seo_advice ++ accessibility_advice
                   ++ ((autoscale_advice str_float scaled :: infrastructure_advice)
                       ++ [capacity_ok]) ++ general_advice)%list
                  ≡ₚ autoscale_advice str_float scaled
                     :: (security_advice ++ seo_advice ++ accessibility_advice
                         ++ infrastructure_advice ++ [capacity_ok] ++ general_advice)%list).
  { cbn. symmetry.
    apply (Permutation_middle
             (security_advice ++ seo_advice ++ accessibility_advice)%list
             (infrastructure_advice ++ [capacity_ok] ++ general_advice)%list). }
  rewrite Hperm. apply NoDup_cons. split.
  - intros Hin. now apply (autoscale_advice_fresh scaled) in Hin.
  - apply (bool_decide_unpack _). vm_compute. exact I.
Qed.

Lemma collected_advice_sublist (rs : list PageResult) (ls : LoadSummary)
    (scaled : ScaleEstimate) :
  sublist (collected_advice str_float rs ls scaled)
    (security_advice ++ seo_advice ++ accessibility_advice
     ++ ((autoscale_advice str_float scaled :: infrastructure_advice) ++ [capacity_ok])
     ++ general_advice)%list.
Proof.
  unfold collected_advice.
  repeat apply sublist_app; try reflexivity.
  - destruct (negb _); [reflexivity | apply sublist_nil_l].
  - destruct (any_findings seo rs); [reflexivity | apply sublist_nil_l].
  - destruct (any_findings accessibility rs); [reflexivity | apply sublist_nil_l].
  - destruct (avg_above_target ls).
    + apply sublist_inserts_r. reflexivity.
    + apply sublist_inserts_l. reflexivity.
Qed.

Lemma collected_advice_NoDup (rs : list PageResult) (ls : LoadSummary)
    (scaled : ScaleEstimate) :
  NoDup (collected_advice str_float rs ls scaled).
Proof.
  apply (sublist_NoDup _ _ (all_advice_NoDup scaled)), collected_advice_sublist.
Qed.

Lemma build_recommendations_collected (rs : list PageResult) (ls : LoadSummary)
    (scaled : ScaleEstimate) :
  build_recommendations str_float rs ls scaled = collected_advice str_float rs ls scaled.
Proof.
  unfold build_recommendations. apply dedupe_loop_NoDup_id, collected_advice_NoDup.
Qed.

End RecommendationFacts.

(** X17. The list [build_recommendations] returns has no string twice; its
    final pass over the advisories never drops one, because the rules cannot
    emit the same text twice: the result is the advisories in rule order,
    between 3 and 13 of them, ending with the two general ones. *)
Theorem recommendations_exact (str_float : option Q -> string) (rs : list PageResult)
    (ls : LoadSummary) (scaled : ScaleEstimate) :
  let out := build_recommendations str_float rs ls scaled in
  NoDup out
  /\ out = collected_advice str_float rs ls scaled
  /\ (3 <= length out <= 13)%nat
  /\ exists before, out = (before ++ general_advice)%list.
Proof.
  intros out. subst out. rewrite build_recommendations_collected.
  split; [apply collected_advice_NoDup |]. split; [reflexivity |].
  unfold collected_advice. split.
  - rewrite !length_app.
    destruct (negb _), (any_findings seo rs), (any_findings accessibility rs),
      (avg_above_target ls); cbn; lia.
  - eexists. rewrite !app_assoc. reflexivity.
Qed.

(** X18. The de-duplication pass on any list returns the first occurrences
    of its strings, in the order of the list: the head, then the first
    occurrences in the rest that differ from it.  What it returns has no
    string twice, is a sub-list of its input and holds every string of the
    input.  An entry of the input that does not occur before its place is
    kept, and what precedes it in the output is the de-duplication of what
    precedes it in the input.  Of a, b, a the pass keeps a, b. *)
Theorem dedupe_keeps_first (recs : list string) :
  let out := dedupe_loop recs ∅ [] in
  out = first_occurrences recs
  /\ NoDup out /\ sublist out recs /\ (forall x, x ∈ recs <-> x ∈ out)
  /\ (forall (i : nat) (x : string), recs !! i = Some x -> x ∉ take i recs ->
        exists j : nat, out !! j = Some x /\ take j out = dedupe_loop (take i recs) ∅ [])
  /\ dedupe_loop ["a"; "b"; "a"] ∅ [] = ["a"; "b"].
Proof.
  intros out. subst out.
  split.
  { rewrite dedupe_loop_first. cbn [app].
    induction (first_occurrences recs) as [| y l IH]; [reflexivity |].
    rewrite filter_cons_True by apply not_elem_of_empty. now f_equal. }
  destruct (dedupe_loop_spec recs ∅ []) as (kept & Heq & Hsub & Hnd & Hall);
    [intros x; split; intros H; [set_solver | inversion H] | constructor |].
  cbn in Heq, Hnd, Hall.
  split; [now rewrite Heq |]. split; [now rewrite Heq |].
  split; [| split; [| reflexivity]].
  - intros x. rewrite Heq. split; [apply Hall |].
    intros Hx. eapply elem_of_sublist; eassumption.
  - intros i x Hi Hfresh.
    replace (dedupe_loop recs ∅ [])
      with (dedupe_loop (take i recs ++ x :: drop (S i) recs) ∅ [])
      by now rewrite take_drop_middle.
    destruct (dedupe_loop_app (take i recs) (x :: drop (S i) recs) ∅ []) as (seen' & Hs & ->).
    assert (Hx : x ∉ seen').
    { rewrite Hs. intros [H | H]; [now apply not_elem_of_empty in H | contradiction]. }
    cbn [dedupe_loop]. rewrite (bool_decide_eq_false_2 _ Hx).
    rewrite dedupe_loop_first, <- app_assoc. cbn [app].
    exists (length (dedupe_loop (take i recs) ∅ [])). split.
    + apply list_lookup_middle. reflexivity.
    + now rewrite take_app_length.
Qed.

Ltac advice_facts :=
  repeat match goal with
         | H : _ \/ _ |- _ => destruct H as [H | H]
         | H : _ ∈ [] |- _ => inversion H
         | H : _ ∈ _ :: _ |- _ =>
             apply elem_of_cons in H as [H | H];
             [try (unfold autoscale_advice in H; cbn in H; discriminate H) |]
         end.

Ltac advice_member :=
  first [ left; apply (bool_decide_unpack _); reflexivity
        | right; advice_member ].

Lemma security_flag (rs : list PageResult) :
  negb (sec_count rs =? 0)%Z = true <-> exists r, r ∈ rs /\ security r <> [].
Proof.
  rewrite negb_true_iff, Z.eqb_neq, sec_count_zero. split.
  - intros Hnot. rewrite <- any_findings_spec.
    destruct (any_findings security rs) eqn:Hany; [reflexivity |].
    exfalso. apply Hnot. intros r Hr.
    destruct (security r) eqn:Hs; [reflexivity |].
    assert (Htrue : any_findings security rs = true).
    { apply any_findings_spec. exists r. split; [assumption | now rewrite Hs]. }
    congruence.
  - intros (r & Hr & Hne) Hall. apply Hne. now apply Hall.
Qed.

(** X19. The two advisories of a kind (security, SEO, accessibility) are in
    the recommendations exactly when some audit record has a finding of that
    kind, however many records or findings there are. *)
Theorem recommendations_triggers (str_float : option Q -> string) (rs : list PageResult)
    (ls : LoadSummary) (scaled : ScaleEstimate) :
  let out := build_recommendations str_float rs ls scaled in
  (forall a, a ∈ security_advice ->
     (a ∈ out <-> exists r, r ∈ rs /\ security r <> []))
  /\ (forall a, a ∈ seo_advice ->
        (a ∈ out <-> exists r, r ∈ rs /\ seo r <> []))
  /\ (forall a, a ∈ accessibility_advice ->
        (a ∈ out <-> exists r, r ∈ rs /\ accessibility r <> [])).
Proof.
  intros out. subst out. rewrite build_recommendations_collected.
  unfold collected_advice, security_advice, seo_advice, accessibility_advice,
    infrastructure_advice, general_advice, capacity_ok in *.
  split; [| split]; intros a Ha.
  - rewrite <- security_flag.
    advice_facts; subst a; rewrite !elem_of_app;
      destruct (negb (sec_count rs =? 0)%Z), (any_findings seo rs),
        (any_findings accessibility rs), (avg_above_target ls);
      (split; [intros H; advice_facts; reflexivity
              | intros H; try discriminate H; advice_member]).
  - rewrite <- any_findings_spec.
    advice_facts; subst a; rewrite !elem_of_app;
      destruct (negb (sec_count rs =? 0)%Z), (any_findings seo rs),
        (any_findings accessibility rs), (avg_above_target ls);
      (split; [intros H; advice_facts; reflexivity
              | intros H; try discriminate H; advice_member]).
  - rewrite <- any_findings_spec.
    advice_facts; subst a; rewrite !elem_of_app;
      destruct (negb (sec_count rs =? 0)%Z), (any_findings seo rs),
        (any_findings accessibility rs), (avg_above_target ls);
      (split; [intros H; advice_facts; reflexivity
              | intros H; try discriminate H; advice_member]).
Qed.

(** X20. The recommendations hold the scaling advisory and the four
    infrastructure advisories exactly when the summary has an average above
    1.5 seconds, and the capacity-is-fine advisory exactly when it has not:
    never both. *)
Theorem recommendations_capacity (str_float : option Q -> string) (rs : list PageResult)
    (ls : LoadSummary) (scaled : ScaleEstimate) :
  let out := build_recommendations str_float rs ls scaled in
  let above := exists a, avg ls = Some a /\ (3 # 2 < a)%Q in
  (autoscale_advice str_float scaled ∈ out <-> above)
  /\ (forall a, a ∈ infrastructure_advice -> (a ∈ out <-> above))
  /\ (capacity_ok ∈ out <-> ~ above).
Proof.
  intros out above. subst out above. rewrite build_recommendations_collected.
  rewrite <- avg_above_target_spec.
  unfold collected_advice, security_advice, seo_advice, accessibility_advice,
    infrastructure_advice, general_advice, capacity_ok in *.
  split; [| split].
  - rewrite !elem_of_app.
    destruct (negb (sec_count rs =? 0)%Z), (any_findings seo rs),
      (any_findings accessibility rs), (avg_above_target ls);
      (split; [intros H; advice_facts; reflexivity
              | intros H; try discriminate H;
                do 3 right; left; apply list_elem_of_here]).
  - intros a Ha. rewrite <- avg_above_target_spec.
    advice_facts; subst a; rewrite !elem_of_app;
      destruct (negb (sec_count rs =? 0)%Z), (any_findings seo rs),
        (any_findings accessibility rs), (avg_above_target ls);
      (split; [intros H; advice_facts; reflexivity
              | intros H; try discriminate H;
                do 3 right; left; apply list_elem_of_further;
                apply (bool_decide_unpack _); reflexivity]).
  - rewrite !elem_of_app.
    destruct (negb (sec_count rs =? 0)%Z), (any_findings seo rs),
      (any_findings accessibility rs), (avg_above_target ls);
      (split; [intros H; advice_facts; try discriminate; try (intros Habs; discriminate Habs)
              | intros H; try (exfalso; apply H; reflexivity);
                advice_member]).
Qed.

(** ** More on the request handler *)

Lemma py_range_lookup (a b : Z) (i : nat) :
  (i < Z.to_nat (b - a))%nat -> py_range a b !! i = Some (a + Z.of_nat i).
Proof.
  intros Hi. unfold py_range. rewrite list_lookup_fmap, lookup_seq_lt by assumption.
  reflexivity.
Qed.

Lemma py_range_length (a b : Z) : length (py_range a b) = Z.to_nat (b - a).
Proof. unfold py_range. now rewrite length_map, length_seq. Qed.

Lemma scale_points_lookup (ls : LoadSummary) (scaled : ScaleEstimate) (i : nat) :
  (i < Z.to_nat (Z.max 1 (servers scaled + 4)))%nat ->
  scale_points ls scaled !! i
  = Some (py_round3 (float_div (or_zero (avg ls)) (inject_Z (1 + Z.of_nat i)))).
Proof.
  intros Hi. unfold scale_points. cbv zeta.
  rewrite list_lookup_fmap, py_range_lookup.
  - cbn [fmap option_fmap option_map].
    replace (Z.max 1 (1 + Z.of_nat i)) with (1 + Z.of_nat i) by lia. reflexivity.
  - lia.
Qed.

Lemma scale_points_length (ls : LoadSummary) (scaled : ScaleEstimate) :
  length (scale_points ls scaled) = Z.to_nat (Z.max 1 (servers scaled + 4)).
Proof. unfold scale_points. rewrite length_map, py_range_length. f_equal. lia. Qed.

Lemma float_div_one (a : Q) : (float_div a (inject_Z 1) == to_float a)%Q.
Proof.
  unfold float_div. change (inject_Z 1) with 1%Q.
  assert (H : (to_float a / to_float 1 == to_float a)%Q).
  { rewrite to_float_one. field. }
  rewrite H. apply to_float_idempotent.
Qed.

Lemma scale_points_facts (ls : LoadSummary) (scaled : ScaleEstimate) :
  let pts := scale_points ls scaled in
  Z.of_nat (length pts) = Z.max 1 (servers scaled + 4)
  /\ (forall s, 1 <= s <= Z.max 1 (servers scaled + 4) ->
        pts !! Z.to_nat (s - 1)
        = Some (py_round3 (float_div (or_zero (avg ls)) (inject_Z s))))
  /\ ((0 <= or_zero (avg ls))%Q -> non_increasing pts).
Proof.
  intros pts. subst pts. split; [rewrite scale_points_length; lia |]. split.
  - intros s Hs. rewrite scale_points_lookup by lia.
    replace (1 + Z.of_nat (Z.to_nat (s - 1))) with s by lia. reflexivity.
  - intros Hbase i j x y Hij Hi Hj.
    assert (Hjlen : (j < Z.to_nat (Z.max 1 (servers scaled + 4)))%nat).
    { rewrite <- (scale_points_length ls scaled). eapply lookup_lt_Some. exact Hj. }
    rewrite scale_points_lookup in Hi, Hj by lia.
    injection Hi as <-. injection Hj as <-.
    apply py_round3_monotone, float_div_antitone; [assumption | lia].
Qed.

(** X21. The scale curve of the handler is never empty: it has
    max(1, servers + 4) points, the point for [s] servers being the float
    quotient of the average (0 when there is none) by [s], rounded to 3
    decimals.  When the average is not negative the curve never rises, the
    roundings included. *)
Theorem scale_points_shape (ls : LoadSummary) (scaled : ScaleEstimate) :
  let pts := scale_points ls scaled in
  Z.of_nat (length pts) = Z.max 1 (servers scaled + 4)
  /\ (forall s, 1 <= s <= Z.max 1 (servers scaled + 4) ->
        exists p, pts !! Z.to_nat (s - 1) = Some p
                  /\ p = round3_exact (float_div (or_zero (avg ls)) (inject_Z s))
                  /\ rounded_to_3dp p (float_div (or_zero (avg ls)) (inject_Z s)))
  /\ ((0 <= or_zero (avg ls))%Q -> non_increasing pts).
Proof.
  destruct (scale_points_facts ls scaled) as (Hlen & Hpts & Hmono).
  split; [exact Hlen |]. split; [| exact Hmono].
  intros s Hs. eexists. split; [apply (Hpts s Hs) |]. split.
  - unfold py_round3. apply round3_exact_proper, float_div_idempotent.
  - apply py_round3_rounded.
Qed.

(** X22. With the estimate of [auto_scale] for a positive average, the scale
    curve has servers + 4 points, starts at the average rounded to 3 decimals
    and passes through the estimate: its point for the recommended number of
    servers is the scaled average of the estimate. *)
Theorem scale_points_through_estimate (ls : LoadSummary) (a target : Q) (e : ScaleEstimate) :
  avg ls = Some a -> (0 < a)%Q -> (0 < target)%Q ->
  auto_scale (avg ls) target ls = Some e ->
  let pts := scale_points ls e in
  Z.of_nat (length pts) = servers e + 4
  /\ (exists p0, pts !! O = Some p0 /\ (p0 == py_round3 a)%Q)
  /\ pts !! Z.to_nat (servers e - 1) = scaled_avg e
  /\ non_increasing pts.
Proof.
  intros Havg Ha Ht He pts. subst pts.
  rewrite Havg in He. rewrite (auto_scale_positive a target ls Ha Ht) in He.
  assert (Hn : 1 <= servers e) by (injection He as <-; cbn; lia).
  assert (Hbase : or_zero (avg ls) = a).
  { rewrite Havg. cbn. destruct (Qeq_bool a 0) eqn:Hz; [| reflexivity].
    apply Qeq_bool_iff in Hz. lra. }
  destruct (scale_points_facts ls e) as (Hlen & Hpts & Hmono).
  split; [lia |]. split; [| split].
  - exists (py_round3 (float_div a (inject_Z 1))). split.
    + rewrite <- Hbase. apply (Hpts 1). lia.
    + rewrite <- (py_round3_to_float a). apply py_round3_proper, float_div_one.
  - rewrite (Hpts (servers e)) by lia. rewrite Hbase.
    injection He as <-. cbn [servers scaled_avg]. reflexivity.
  - apply Hmono. rewrite Hbase. lra.
Qed.

Lemma scale_points_through_estimate_witness :
  Z.of_nat (length (scale_points
              (summarize_load_results
                 [ {| sample_status := StatusCode 200; sample_time := Some 3%Q |};
                   {| sample_status := StatusCode 200; sample_time := Some 4%Q |} ])
              {| servers := 3;
                 scaled_avg := Some (py_round3 (float_div (py_round3 (7 # 2)) (inject_Z 3)));
                 processed := 2; failed := 0 |})) = 3 + 4.
Proof.
  apply (scale_points_through_estimate
           (summarize_load_results
              [ {| sample_status := StatusCode 200; sample_time := Some 3%Q |};
                {| sample_status := StatusCode 200; sample_time := Some 4%Q |} ])
           (py_round3 (7 # 2)) (3 # 2)); vm_compute; reflexivity.
Defined.

Lemma sum_sizes_perm (ks ks' : list Z) : Permutation ks ks' -> sum_sizes ks = sum_sizes ks'.
Proof.
  induction 1 as [| k l l' _ IH | k k' l | l l' l'' _ IH1 _ IH2];
    rewrite ?sum_sizes_cons; try lia; reflexivity.
Qed.

Lemma counter_get_keys (h : list (Q * Z)) :
  NoDupA Qeq (map fst h) -> map (fun k => counter_get k h) (map fst h) = map snd h.
Proof.
  induction h as [| [k n] h IH]; intros Hnd; [reflexivity |].
  cbn [map fst snd] in *. inversion Hnd as [| ? ? Hnot Hrest]; subst.
  f_equal.
  - cbn. destruct (Qeq_bool k k) eqn:Hkk; [reflexivity |].
    apply Qeq_bool_neq in Hkk. now contradiction Hkk.
  - rewrite <- (IH Hrest). apply map_ext_in. intros k' Hin. cbn.
    destruct (Qeq_bool k k') eqn:Hkk; [| reflexivity].
    exfalso. apply Hnot. apply InA_alt. exists k'. split; [| assumption].
    now apply Qeq_bool_iff.
Qed.

(** X23. The values the handler charts for the histogram are the counts of
    the buckets, one per bucket and each at least 1, and they add up to the
    number of samples that have a time. *)
Theorem hist_values_total (rs : list LoadSample) :
  let h := histogram (summarize_load_results rs) in
  Permutation (hist_values h) (map snd h)
  /\ sum_sizes (hist_values h) = len (sample_times rs)
  /\ length (hist_values h) = length h
  /\ Forall (fun n => 1 <= n) (hist_values h).
Proof.
  intros h. destruct (histogram_totals_facts rs) as (Hsum & Hpos & Hnd). fold h in Hsum, Hpos, Hnd.
  assert (Hperm : Permutation (hist_values h) (map snd h)).
  { unfold hist_values. rewrite <- (counter_get_keys h Hnd).
    apply Permutation_map, sorted_perm. }
  split; [assumption |]. split; [| split].
  - now rewrite (sum_sizes_perm _ _ Hperm).
  - rewrite (Permutation_length Hperm). apply length_map.
  - rewrite Hperm. apply Forall_fmap. exact Hpos.
Qed.

Lemma issue_counts_foldl (rs : list PageResult) (a b c : Z) :
  foldl (fun counts r =>
           let '(sec, se, acc) := counts in
           (sec + len (security r), se + len (seo r), acc + len (accessibility r)))
        (a, b, c) rs
  = (a + sum_sizes (map (fun r => len (security r)) rs),
     b + sum_sizes (map (fun r => len (seo r)) rs),
     c + sum_sizes (map (fun r => len (accessibility r)) rs)).
Proof.
  revert a b c. induction rs as [| r rs IH]; intros a b c; cbn [foldl map].
  - unfold sum_sizes; cbn. f_equal; [f_equal |]; lia.
  - rewrite IH, !sum_sizes_cons. f_equal; [f_equal |]; lia.
Qed.

Lemma sum_lens_zero {A B} (f : A -> list B) (xs : list A) :
  sum_sizes (map (fun x => len (f x)) xs) = 0 <-> forall x, x ∈ xs -> f x = [].
Proof.
  induction xs as [| x xs IH]; cbn [map].
  - split; [intros _ y Hy; inversion Hy | reflexivity].
  - rewrite sum_sizes_cons.
    pose proof (sum_lens_nonneg f xs) as Hnn.
    assert (Hlen : 0 <= len (f x)) by (unfold len; lia).
    split.
    + intros Hsum y Hy. apply elem_of_cons in Hy as [-> | Hy].
      * destruct (f x); [reflexivity | unfold len in *; cbn in *; lia].
      * apply IH; [lia | assumption].
    + intros Hall. rewrite (Hall x) by (now left).
      assert (Hrest : sum_sizes (map (fun y => len (f y)) xs) = 0).
      { apply IH. intros y Hy. apply Hall. now right. }
      rewrite Hrest. reflexivity.
Qed.

(** X24. The three counters of the handler are the numbers of security, SEO
    and accessibility findings over all records, the total is their sum, and
    it is 0 exactly when no record has a finding of any kind. *)
Theorem total_issues_sum (rs : list PageResult) :
  issue_counts rs
  = (sum_sizes (map (fun r => len (security r)) rs),
     sum_sizes (map (fun r => len (seo r)) rs),
     sum_sizes (map (fun r => len (accessibility r)) rs))
  /\ total_issues rs
     = sum_sizes (map (fun r => len (security r) + len (seo r) + len (accessibility r)) rs)
  /\ (total_issues rs = 0
      <-> forall r, r ∈ rs -> security r = [] /\ seo r = [] /\ accessibility r = []).
Proof.
  assert (Hc : issue_counts rs
               = (sum_sizes (map (fun r => len (security r)) rs),
                  sum_sizes (map (fun r => len (seo r)) rs),
                  sum_sizes (map (fun r => len (accessibility r)) rs))).
  { unfold issue_counts. rewrite issue_counts_foldl. reflexivity. }
  assert (Ht : total_issues rs
               = sum_sizes (map (fun r => len (security r)) rs)
                 + sum_sizes (map (fun r => len (seo r)) rs)
                 + sum_sizes (map (fun r => len (accessibility r)) rs)).
  { unfold total_issues. rewrite Hc. lia. }
  split; [exact Hc |]. split.
  - rewrite Ht. clear. induction rs as [| r rs IH]; [reflexivity |].
    cbn [map]. rewrite !sum_sizes_cons. lia.
  - rewrite Ht.
    pose proof (sum_lens_nonneg security rs). pose proof (sum_lens_nonneg seo rs).
    pose proof (sum_lens_nonneg accessibility rs).
    split.
    + intros Hz r Hr. repeat split.
      * apply (proj1 (sum_lens_zero security rs)); [lia | assumption].
      * apply (proj1 (sum_lens_zero seo rs)); [lia | assumption].
      * apply (proj1 (sum_lens_zero accessibility rs)); [lia | assumption].
    + intros Hall.
      rewrite (proj2 (sum_lens_zero security rs)) by (intros r Hr; now apply Hall).
      rewrite (proj2 (sum_lens_zero seo rs)) by (intros r Hr; now apply Hall).
      rewrite (proj2 (sum_lens_zero accessibility rs)) by (intros r Hr; now apply Hall).
      reflexivity.
Qed.






